(** * SoundCode: the pattern DSL backend and the Tone.js audio engine

  A shallow embedding of
  - the backend of the pattern studio (the Lark grammar [pattern_grammar],
    [PatternTransformer], the pydantic response models and the
    [parse_pattern] endpoint), and
  - the frontend audio engine ([frontend/utils/audioEngine.js]) with the
    part of Tone.js' transport and parts that the engine drives,
  followed by the properties of the pattern compiler and of the scheduler.

  Conventions.  Python [str] and JS strings are [string]; the parser works
  on the character list of its input.  Python [float] / JS numbers that
  hold beat offsets are modelled by the exact rational value of the decimal
  literal they come from (type [Q], always in lowest terms); Python's
  [float()] rounds that value to the nearest binary64, which keeps [<=],
  and to infinity from [Api.float_limit] on.
  Python dicts and JS objects that are used as maps are [gmap string _]. *)

From Stdlib Require Import Ascii String QArith.
From stdpp Require Import base option list strings gmap fin_maps.

Local Open Scope string_scope.
Local Open Scope list_scope.

(** ** Characters and the regular expressions of the grammar's terminals *)

Module Lexer.

Definition chars := list ascii.

Definition in_range (lo hi c : ascii) : bool :=
  (N_of_ascii lo <=? N_of_ascii c)%N && (N_of_ascii c <=? N_of_ascii hi)%N.

Definition is_digit (c : ascii) : bool := in_range "0" "9" c.
Definition is_upper (c : ascii) : bool := in_range "A" "Z" c.
Definition is_lower (c : ascii) : bool := in_range "a" "z" c.
Definition is_alpha (c : ascii) : bool := is_upper c || is_lower c.

(** [[a-zA-Z_]] and [[a-zA-Z0-9_]] *)
Definition is_ident_start (c : ascii) : bool :=
  is_alpha c || Ascii.eqb c "_".
Definition is_ident_char (c : ascii) : bool :=
  is_ident_start c || is_digit c.

(** [common.WS] is [/[ \t\f\r\n]/+]. *)
Definition is_ws (c : ascii) : bool :=
  Ascii.eqb c " " || Ascii.eqb c "009" || Ascii.eqb c "012"
  || Ascii.eqb c "013" || Ascii.eqb c "010".

(** Greedy [c*] for a character class. *)
Fixpoint take_while (p : ascii -> bool) (s : chars) : chars * chars :=
  match s with
  | c :: r =>
      if p c then let '(a, r') := take_while p r in (c :: a, r')
      else ([], s)
  | [] => ([], [])
  end.

(** [%ignore WS]: white space is skipped wherever a terminal is expected. *)
Definition skip_ws (s : chars) : chars := snd (take_while is_ws s).

(** An anonymous string terminal such as ["import"] or [";"]. *)
Fixpoint lit (l s : chars) : option chars :=
  match l, s with
  | [], _ => Some s
  | a :: l', c :: s' => if Ascii.eqb a c then lit l' s' else None
  | _ :: _, [] => None
  end.

(** [INSTRUMENT: /[a-zA-Z_][a-zA-Z0-9_]*/] *)
Definition INSTRUMENT (s : chars) : option (chars * chars) :=
  match s with
  | c :: r =>
      if is_ident_start c
      then let '(a, r') := take_while is_ident_char r in Some (c :: a, r')
      else None
  | [] => None
  end.

(** The first alternative of NOTE, [[A-G][#b]?[0-9]], with the
    backtracking of the optional accidental. *)
Definition pitched (s : chars) : option (chars * chars) :=
  match s with
  | c :: r =>
      if in_range "A" "G" c then
        match r with
        | d :: r' =>
            if Ascii.eqb d "#" || Ascii.eqb d "b" then
              match r' with
              | e :: r'' => if is_digit e then Some ([c; d; e], r'') else None
              | [] => None
              end
            else if is_digit d then Some ([c; d], r')
            else None
        | [] => None
        end
      else None
  | [] => None
  end.

(** [NOTE: /[A-G][#b]?[0-9]|[A-Za-z]+/]: an ordered alternation. *)
Definition NOTE (s : chars) : option (chars * chars) :=
  match pitched s with
  | Some m => Some m
  | None =>
      match take_while is_alpha s with
      | ([], _) => None
      | (a, r) => Some (a, r)
      end
  end.

(** [TIMESTAMP: /[0-9]+(\.[0-9]+)?/] *)
Definition TIMESTAMP (s : chars) : option (chars * chars) :=
  match take_while is_digit s with
  | ([], _) => None
  | (ip, r) =>
      match r with
      | c :: r' =>
          if Ascii.eqb c "." then
            match take_while is_digit r' with
            | ([], _) => Some (ip, r)
            | (fp, r'') => Some (ip ++ c :: fp, r'')
            end
          else Some (ip, r)
      | [] => Some (ip, r)
      end
  end.

(** [BLOCK_TYPE: "melody" | "rhythm" | "harmony" | "contrast"] *)
Definition block_types : list string :=
  ["melody"; "rhythm"; "harmony"; "contrast"].

Fixpoint first_lit (ls : list string) (s : chars) : option (chars * chars) :=
  match ls with
  | [] => None
  | l :: ls' =>
      match lit (list_ascii_of_string l) s with
      | Some r => Some (list_ascii_of_string l, r)
      | None => first_lit ls' s
      end
  end.

Definition BLOCK_TYPE (s : chars) : option (chars * chars) :=
  first_lit block_types s.

(** [MODULE_NAME: /\"[a-zA-Z_][a-zA-Z0-9_]*\"/]; the token keeps its
    quotes. *)
Definition MODULE_NAME (s : chars) : option (chars * chars) :=
  match s with
  | q :: r =>
      if Ascii.eqb q "034" then
        match INSTRUMENT r with
        | Some (a, q' :: r') =>
            if Ascii.eqb q' "034" then Some (q :: a ++ [q'], r') else None
        | _ => None
        end
      else None
  | [] => None
  end.

(** A terminal matches a non-empty prefix of the input. *)
Definition prefix_terminal (T : chars -> option (chars * chars)) : Prop :=
  forall s a r, T s = Some (a, r) -> a <> [] /\ s = a ++ r.

(** A greedy scan for [p] stops at [r]: at the end of the input or at a
    character outside the class. *)
Definition stops (p : ascii -> bool) (r : chars) : Prop :=
  match r with [] => True | c :: _ => p c = false end.

End Lexer.

(** ** The Lark parser built from [pattern_grammar]

  [Lark(pattern_grammar)] is an Earley parser with the dynamic lexer: at
  every position the regular expression of each expected terminal is
  matched (one greedy match per terminal), white space being skipped in
  between.  No two terminals expected at one position of this grammar match
  the same input, so the parse is the deterministic descent below.  Of the
  parse tree the parser keeps the named tokens and the subtrees; the
  anonymous tokens (["import"], ["from"], the braces, [";"]) are filtered
  out. *)

Module Lark.
Import Lexer.

(** [Tree('statement', [INSTRUMENT, NOTE, TIMESTAMP])] *)
Record statement_tree := Statement {
  st_instrument : string;
  st_note : string;
  st_timestamp : string
}.

(** [Tree('pattern_block', [BLOCK_TYPE, statement...])] *)
Record block_tree := Block {
  bl_type : string;
  bl_statements : list statement_tree
}.

(** [Tree('import_statement', [INSTRUMENT, MODULE_NAME])] *)
Record import_tree := Import {
  im_instrument : string;
  im_module : string
}.

(** The children of [Tree('start', ...)]. *)
Inductive child :=
| ImportStatement (t : import_tree)
| PatternBlock (t : block_tree).

Definition tree := list child.

(** The exceptions [pattern_parser.parse] raises. *)
Inductive error :=
| UnexpectedCharacters (pos : nat)
| UnexpectedEOF.

(** Outcome of a parsing function: a value and the rest of the input, a
    failure at the point where no expected terminal matches, or an
    exhausted recursion budget. *)
Inductive res (A : Type) :=
| Ok (x : A) (rest : chars)
| Fail (rest : chars)
| OutOfFuel.
Arguments Ok {A} x rest.
Arguments Fail {A} rest.
Arguments OutOfFuel {A}.

Definition parser (A : Type) := chars -> res A.

Definition bind {A B} (p : parser A) (k : A -> parser B) : parser B :=
  fun s =>
    match p s with
    | Ok x r => k x r
    | Fail r => Fail r
    | OutOfFuel => OutOfFuel
    end.

Definition ret {A} (x : A) : parser A := fun s => Ok x s.

Notation "'let*' x := p 'in' k" := (bind p (fun x => k))
  (at level 10, x name, p at level 100, k at level 200).

(** A named terminal, after the ignored white space. *)
Definition tok (T : chars -> option (chars * chars)) : parser string :=
  fun s =>
    match T (skip_ws s) with
    | Some (a, r) => Ok (string_of_list_ascii a) r
    | None => Fail (skip_ws s)
    end.

(** An anonymous terminal, after the ignored white space. *)
Definition sym (l : string) : parser unit :=
  fun s =>
    match lit (list_ascii_of_string l) (skip_ws s) with
    | Some r => Ok tt r
    | None => Fail (skip_ws s)
    end.

(** [statement: INSTRUMENT NOTE TIMESTAMP ";"] *)
Definition statement : parser statement_tree :=
  let* i := tok INSTRUMENT in
  let* n := tok NOTE in
  let* t := tok TIMESTAMP in
  let* _ := sym ";" in
  ret (Statement i n t).

(** [statement* "}"]: the statements of a block up to its closing brace. *)
Fixpoint statements (fuel : nat) : parser (list statement_tree) :=
  fun s =>
    match fuel with
    | 0 => OutOfFuel
    | S fuel' =>
        match lit (list_ascii_of_string "}") (skip_ws s) with
        | Some r => Ok [] r
        | None =>
            (let* st := statement in
             let* sts := statements fuel' in
             ret (st :: sts)) s
        end
    end.

(** [pattern_block: BLOCK_TYPE "{" statement* "}"] *)
Definition pattern_block (fuel : nat) : parser block_tree :=
  let* b := tok BLOCK_TYPE in
  let* _ := sym "{" in
  let* sts := statements fuel in
  ret (Block b sts).

(** [pattern_block+] up to the end of the input. *)
Fixpoint pattern_blocks (fuel : nat) : parser (list block_tree) :=
  fun s =>
    match fuel with
    | 0 => OutOfFuel
    | S fuel' =>
        (let* b := pattern_block fuel' in
         fun r =>
           match skip_ws r with
           | [] => Ok [b] []
           | _ :: _ => (let* bs := pattern_blocks fuel' in ret (b :: bs)) r
           end) s
    end.

(** [import_statement: "import" INSTRUMENT "from" MODULE_NAME ";"] *)
Definition import_statement : parser import_tree :=
  let* _ := sym "import" in
  let* i := tok INSTRUMENT in
  let* _ := sym "from" in
  let* m := tok MODULE_NAME in
  let* _ := sym ";" in
  ret (Import i m).

(** [import_statement*] *)
Fixpoint import_statements (fuel : nat) : parser (list import_tree) :=
  fun s =>
    match fuel with
    | 0 => OutOfFuel
    | S fuel' =>
        match lit (list_ascii_of_string "import") (skip_ws s) with
        | None => Ok [] s
        | Some _ =>
            (let* i := import_statement in
             let* ims := import_statements fuel' in
             ret (i :: ims)) s
        end
    end.

(** [start: import_statement* pattern_block+] *)
Definition start (fuel : nat) : parser tree :=
  let* ims := import_statements fuel in
  let* bs := pattern_blocks fuel in
  ret (map ImportStatement ims ++ map PatternBlock bs).

(** Every loop iteration consumes a character, so a budget above the
    length of the input is never exhausted (see [parse_total]). *)
Definition fuel_for (s : chars) : nat := S (S (length s)).

(** [pattern_parser.parse(text)]: the tree, or the exception raised;
    [None] would be a parse that does not return. *)
Definition parse (text : string) : option (tree + error) :=
  let s := list_ascii_of_string text in
  match start (fuel_for s) s with
  | Ok t _ => Some (inl t)
  | Fail [] => Some (inr UnexpectedEOF)
  | Fail (c :: r) => Some (inr (UnexpectedCharacters (length s - length (c :: r))))
  | OutOfFuel => None
  end.

End Lark.

(** ** [PatternTransformer]: from the parse tree to the pattern dict *)

Module PatternTransformer.
Import Lexer.

(** Value of a digit string in base ten. *)
Definition digit_value (c : ascii) : N := (N_of_ascii c - N_of_ascii "0")%N.

Definition digits_value (ds : chars) : N :=
  fold_left (fun acc c => (10 * acc + digit_value c)%N) ds 0%N.

(** Python's [float] on the decimal literals [digits] and
    [digits.digits], the strings a TIMESTAMP token can hold: the exact
    value of the literal, in lowest terms.  [None] is [ValueError]. *)
Definition float (s : string) : option Q :=
  match take_while is_digit (list_ascii_of_string s) with
  | ([], _) => None
  | (ip, []) => Some (Qred (inject_Z (Z.of_N (digits_value ip))))
  | (ip, c :: r) =>
      if Ascii.eqb c "." then
        match take_while is_digit r with
        | ([], _) => None
        | (fp, []) =>
            Some (Qred (Qmake (Z.of_N (digits_value (ip ++ fp)))
                              (Pos.pow 10 (Pos.of_nat (length fp)))))
        | (_, _ :: _) => None
        end
      else None
  end.

(** The strings [float] converts. *)
Definition decimal (x : string) : Prop := is_Some (float x).

Definition decimal_block (b : Lark.block_tree) : Prop :=
  Forall (fun st => decimal (Lark.st_timestamp st)) (Lark.bl_statements b).

(** The dict built by [statement]: keys [instrument], [note], [time]. *)
Record statement_dict := StatementDict {
  sd_instrument : string;
  sd_note : string;
  sd_time : Q
}.

(** The inner dict of [{"import": {...}}]. *)
Record import_dict := ImportDict {
  id_instrument : string;
  id_module : string
}.

(** The dict built by [pattern_block]: keys [block_type], [statements]. *)
Record block_dict := BlockDict {
  block_type : string;
  statements : list statement_dict
}.

(** What [start] receives: dicts that have the key ["import"] and dicts
    that have the key ["block_type"]. *)
Inductive item :=
| ImportItem (i : import_dict)
| BlockItem (b : block_dict).

(** The dict built by [start]: keys [imports] and [patterns]. *)
Record pattern_data := PatternData {
  pd_imports : list import_dict;
  pd_patterns : gmap string (list statement_dict)
}.

Definition statement (items : Lark.statement_tree) : option statement_dict :=
  t ← float (Lark.st_timestamp items);
  Some (StatementDict (Lark.st_instrument items) (Lark.st_note items) t).

(** [block_type = items[0]; statements = items[1:]] *)
Definition pattern_block (b : string) (items : list statement_dict) : block_dict :=
  BlockDict b items.

Definition import_statement (items : Lark.import_tree) : import_dict :=
  ImportDict (Lark.im_instrument items) (Lark.im_module items).

(** One turn of the loop of [start]. *)
Definition start_step (result : pattern_data) (it : item) : pattern_data :=
  match it with
  | ImportItem i =>
      PatternData (pd_imports result ++ [i]) (pd_patterns result)
  | BlockItem b =>
      PatternData (pd_imports result)
                  (<[block_type b := statements b]> (pd_patterns result))
  end.

Definition start (items : list item) : pattern_data :=
  fold_left start_step items (PatternData [] ∅).

(** [Transformer.transform]: children first, then the callback of the
    rule.  [None] is the [VisitError] that wraps an exception raised by a
    callback. *)
Definition transform_child (c : Lark.child) : option item :=
  match c with
  | Lark.ImportStatement t => Some (ImportItem (import_statement t))
  | Lark.PatternBlock t =>
      sts ← mapM statement (Lark.bl_statements t);
      Some (BlockItem (pattern_block (Lark.bl_type t) sts))
  end.

Definition transform (t : Lark.tree) : option pattern_data :=
  items ← mapM transform_child t;
  Some (start items).

End PatternTransformer.

(** ** The pydantic models and the [/api/parse] endpoint *)

Module Api.

Record ImportStatement := {
  is_instrument : string;
  is_module : string
}.

Record NoteEvent := {
  instrument : string;
  note : string;
  time : Q;
  velocity : Q;
  duration : Q
}.

Record Pattern := {
  imports : list ImportStatement;
  patterns : gmap string (list NoteEvent)
}.

Record ParseResponse := {
  success : bool;
  pattern : option Pattern;
  error : option string
}.

(** Validation of the returned dict against [response_model]: a
    [NoteEvent] is built from the keys a statement dict has, and the
    fields it lacks, [velocity] and [duration], take their declared
    defaults. *)
Definition default_velocity : Q := 1.
Definition default_duration : Q := 1 # 2.

Definition validate_note (d : PatternTransformer.statement_dict) : NoteEvent :=
  {| instrument := PatternTransformer.sd_instrument d;
     note := PatternTransformer.sd_note d;
     time := PatternTransformer.sd_time d;
     velocity := default_velocity;
     duration := default_duration |}.

Definition validate_import (d : PatternTransformer.import_dict) : ImportStatement :=
  {| is_instrument := PatternTransformer.id_instrument d;
     is_module := PatternTransformer.id_module d |}.

Definition validate_pattern (d : PatternTransformer.pattern_data) : Pattern :=
  {| imports := validate_import <$> PatternTransformer.pd_imports d;
     patterns := fmap (M := gmap string) (fmap validate_note)
                      (PatternTransformer.pd_patterns d) |}.

(** The exceptions the [try] block can raise, and [str(e)]: of the
    message Lark composes, the model keeps the name of the exception. *)
Inductive exception :=
| LarkError (e : Lark.error)
| VisitError.

Definition str (e : exception) : string :=
  match e with
  | LarkError (Lark.UnexpectedCharacters _) => "UnexpectedCharacters"
  | LarkError Lark.UnexpectedEOF => "UnexpectedEOF"
  | VisitError => "VisitError"
  end.

(** The [try] block of [parse_pattern]. *)
Definition try_parse (pattern_code : string) : option (PatternTransformer.pattern_data + exception) :=
  r ← Lark.parse pattern_code;
  match r with
  | inr e => Some (inr (LarkError e))
  | inl parse_tree =>
      match PatternTransformer.transform parse_tree with
      | Some pattern_data => Some (inl pattern_data)
      | None => Some (inr VisitError)
      end
  end.

(** [parse_pattern(request)]: the response the function returns.  [None]
    would be a request that is never answered. *)
Definition parse_pattern (pattern_code : string) : option ParseResponse :=
  r ← try_parse pattern_code;
  match r with
  | inl pattern_data =>
      Some {| success := true;
              pattern := Some (validate_pattern pattern_data);
              error := None |}
  | inr e =>
      Some {| success := false; pattern := None; error := Some (str e) |}
  end.

(** The document of a successful response: what the specification calls
    [compile]. *)
Definition compile (text : string) : option Pattern :=
  r ← parse_pattern text; pattern r.

(** The track of one block type in the compiled document. *)
Definition track (text block : string) : option (list NoteEvent) :=
  doc ← compile text; patterns doc !! block.

(** The event one statement of the source ends up as. *)
Definition event_of_statement (st : Lark.statement_tree) : option NoteEvent :=
  validate_note <$> PatternTransformer.statement st.

(** Where Python's [float] stops being finite: a decimal literal of value
    [2^1024 - 2^970] or more, half way from the largest binary64 to
    [2^1024], is rounded to [inf]. *)
Definition float_limit : Q := inject_Z (2 ^ 1024 - 2 ^ 970).

(** [math.isfinite] of the float read from a literal of value [q]. *)
Definition isfinite (q : Q) : bool := negb (Qle_bool float_limit q).

(** The times of all events of a document are finite. *)
Definition finite_times (doc : Pattern) : bool :=
  forallb (fun track => forallb (fun e => isfinite (time e)) (snd track))
    (map_to_list (patterns doc)).

(** FastAPI renders the returned response as JSON with [allow_nan=False]:
    an infinite time is a [ValueError], and the client is sent the
    answer 500 instead, [None] here. *)
Definition render (response : ParseResponse) : option ParseResponse :=
  match pattern response with
  | Some doc => if finite_times doc then Some response else None
  | None => Some response
  end.

End Api.

(** ** The part of Tone.js the audio engine drives *)

Module Tone.

(** A Tone [Time]: a number or a notation such as ["8n"] or ["4m"]. *)
Inductive time_value :=
| Num (q : Q)
| Notated (n : string).

Inductive playback_state := started | stopped | paused.

(** [Tone.Transport]: its state, the position of its clock on the
    timeline and the settings the engine touches. *)
Record Transport := {
  state : playback_state;
  position : Q;
  bpm : Q;
  loop : bool;
  loopStart : time_value;
  loopEnd : time_value
}.

(** The transport when the module is loaded. *)
Definition initial_transport : Transport :=
  {| state := stopped; position := 0; bpm := 120; loop := false;
     loopStart := Num 0; loopEnd := Notated "4m" |}.

(** [Transport.start()] runs the clock on from where it is. *)
Definition start (t : Transport) : Transport :=
  {| state := started; position := position t; bpm := bpm t;
     loop := loop t; loopStart := loopStart t; loopEnd := loopEnd t |}.

(** [Transport.stop()] stops the clock and rewinds it. *)
Definition stop (t : Transport) : Transport :=
  {| state := stopped; position := 0; bpm := bpm t;
     loop := loop t; loopStart := loopStart t; loopEnd := loopEnd t |}.

(** [Transport.pause()] holds a running clock where it is. *)
Definition pause (t : Transport) : Transport :=
  {| state := match state t with started => paused | st => st end;
     position := position t; bpm := bpm t;
     loop := loop t; loopStart := loopStart t; loopEnd := loopEnd t |}.

(** [Transport.position = p] *)
Definition set_position (p : Q) (t : Transport) : Transport :=
  {| state := state t; position := p; bpm := bpm t;
     loop := loop t; loopStart := loopStart t; loopEnd := loopEnd t |}.

(** Time passing: the clock of a started transport has run to [p]; a
    stopped or paused clock stands where it is. *)
Definition run_to (p : Q) (t : Transport) : Transport :=
  match state t with
  | started => set_position p t
  | _ => t
  end.

(** [Transport.bpm.value = b] *)
Definition set_bpm (b : Q) (t : Transport) : Transport :=
  {| state := state t; position := position t; bpm := b;
     loop := loop t; loopStart := loopStart t; loopEnd := loopEnd t |}.

(** [Transport.loop = b; Transport.loopStart = a; Transport.loopEnd = e] *)
Definition set_loop (b : bool) (a e : time_value) (t : Transport) : Transport :=
  {| state := state t; position := position t; bpm := bpm t;
     loop := b; loopStart := a; loopEnd := e |}.

(** [Tone.Part]: the timed events it was built from, where on the
    timeline it was started, and its loop settings.  The callback of every
    part of the engine is the same closure, [AudioEngine.callback]. *)
Record Part := {
  events : list (Q * Api.NoteEvent);
  part_start : option time_value;
  part_loop : bool;
  part_loopEnd : time_value
}.

(** [new Tone.Part(callback, events)]: not started, not looping. *)
Definition new_Part (evs : list (Q * Api.NoteEvent)) : Part :=
  {| events := evs; part_start := None; part_loop := false;
     part_loopEnd := Notated "1m" |}.

Definition Part_start (t : time_value) (p : Part) : Part :=
  {| events := events p; part_start := Some t; part_loop := part_loop p;
     part_loopEnd := part_loopEnd p |}.

Definition Part_set_loop (b : bool) (p : Part) : Part :=
  {| events := events p; part_start := part_start p; part_loop := b;
     part_loopEnd := part_loopEnd p |}.

Definition Part_set_loopEnd (e : time_value) (p : Part) : Part :=
  {| events := events p; part_start := part_start p;
     part_loop := part_loop p; part_loopEnd := e |}.

(** [Tone.Sampler]: the samples it was given. *)
Record Sampler := {
  urls : list (string * string);
  baseUrl : string
}.

(** [Tone.EQ3(low, mid, high)] *)
Record EQ3 := { low : Q; mid : Q; high : Q }.

End Tone.

(** ** [frontend/utils/audioEngine.js] *)

Module AudioEngine.

(** The module-level variables, with the transport they drive.  A [null]
    entry of [instruments] or [eq] is [None].  The parts scheduled on the
    transport are the ones held in [patternParts]: [playPattern] creates
    and stores them, [stopPattern] disposes of them and drops them. *)
Record engine := {
  instruments : gmap string (option Tone.Sampler);
  eq : gmap string (option Tone.EQ3);
  currentPattern : option Api.Pattern;
  patternParts : gmap string Tone.Part;
  transport : Tone.Transport
}.

(** The module when it is loaded. *)
Definition initial : engine :=
  {| instruments := {[ "piano" := None; "synth" := None; "guitar" := None ]};
     eq := {[ "low" := None; "mid" := None; "high" := None ]};
     currentPattern := None;
     patternParts := ∅;
     transport := Tone.initial_transport |}.

(** The samplers [initAudio] asks for. *)
Definition piano : Tone.Sampler :=
  {| Tone.urls := [("C4", "C4.mp3"); ("E4", "E4.mp3"); ("G4", "G4.mp3")];
     Tone.baseUrl := "/instruments/piano/" |}.

Definition synth : Tone.Sampler :=
  {| Tone.urls := [("Kick", "kick.mp3"); ("Snare", "snare.mp3");
                   ("HiHat", "hihat.mp3")];
     Tone.baseUrl := "/instruments/synth/" |}.

Definition guitar : Tone.Sampler :=
  {| Tone.urls := [("E2", "E2.mp3"); ("A2", "A2.mp3"); ("D3", "D3.mp3")];
     Tone.baseUrl := "/instruments/guitar/" |}.

(** [initAudio()], once the audio context has started.  The three EQ
    bands and the piano are created.  The sampler of the Tone.js the
    repository pins (14.7.77) refuses a url key that is neither a note name
    nor a MIDI number, so [new Tone.Sampler] throws for the synth (keys
    Kick, Snare, HiHat): the [catch] logs and rethrows, the synth and the
    guitar stay as they were, and the lines that set the tempo and the loop
    of the transport are not reached. *)
Definition initAudio (s : engine) : engine :=
  {| instruments := <["piano" := Some piano]> (instruments s);
     eq :=
       <["high" := Some {| Tone.low := 0; Tone.mid := 0; Tone.high := -1 |}]>
         (<["mid" := Some {| Tone.low := 0; Tone.mid := 0; Tone.high := 0 |}]>
           (<["low" := Some {| Tone.low := -1; Tone.mid := 0; Tone.high := 0 |}]>
             (eq s)));
     currentPattern := currentPattern s;
     patternParts := patternParts s;
     transport := transport s |}.

(** What reading [instruments[name]] gives. *)
Inductive value :=
| Undefined
| Null
| SamplerObject (s : Tone.Sampler)
| Inherited (name : string).

(** [instruments] is an object literal, so a name it does not have is
    looked up on [Object.prototype]. *)
Definition object_prototype : list string :=
  ["constructor"; "hasOwnProperty"; "isPrototypeOf";
   "propertyIsEnumerable"; "toLocaleString"; "toString"; "valueOf";
   "__defineGetter__"; "__defineSetter__"; "__lookupGetter__";
   "__lookupSetter__"; "__proto__"].

Definition get (o : gmap string (option Tone.Sampler)) (name : string) : value :=
  match o !! name with
  | Some (Some s) => SamplerObject s
  | Some None => Null
  | None =>
      if bool_decide (name ∈ object_prototype) then Inherited name
      else Undefined
  end.

Definition truthy (v : value) : bool :=
  match v with
  | Undefined | Null => false
  | SamplerObject _ | Inherited _ => true
  end.

(** What a call leaves behind outside the module: lines on the console
    and notes handed to a sampler. *)
Inductive effect :=
| ConsoleError (msg : string)
| TriggerAttackRelease (s : Tone.Sampler) (note : string)
    (duration : Tone.time_value) (time : option Q) (velocity : option Q).

Inductive js_error := TypeError (msg : string).

(** How a function body ends: the effects it had, and the exception it
    threw if it did not return. *)
Record completion := {
  effects : list effect;
  thrown : option js_error
}.

(** [v.triggerAttackRelease(note, duration, time, velocity)]: the call
    reaches a sampler with these arguments, or is a [TypeError] on what is
    not a sampler.  What the sampler does with the call inside Tone.js (it
    can refuse a note it has no buffer for) is not part of [thrown]. *)
Definition triggerAttackRelease (v : value) (note : string)
    (duration : Tone.time_value) (time velocity : option Q) : completion :=
  match v with
  | SamplerObject s =>
      {| effects := [TriggerAttackRelease s note duration time velocity];
         thrown := None |}
  | _ =>
      {| effects := [];
         thrown := Some (TypeError "triggerAttackRelease is not a function") |}
  end.

(** [playNote(instrumentName, note)]; the engine it leaves and how the
    call ends. *)
Definition playNote (instrumentName note : string) (s : engine) : engine * completion :=
  if negb (truthy (get (instruments s) instrumentName)) then
    (s, {| effects := [ConsoleError ("Instrument " ++ instrumentName ++ " not found")];
           thrown := None |})
  else
    let c := triggerAttackRelease (get (instruments s) instrumentName)
               note (Tone.Notated "8n") None None in
    match thrown c with
    | None => (s, c)
    | Some _ =>
        (s, {| effects := effects c ++
                 [ConsoleError ("Error playing note " ++ note ++ " on " ++ instrumentName ++ ":")];
               thrown := None |})
    end.

(** [x || y] on a number: zero is falsy. *)
Definition or_else {A} (x : Q) (number : Q -> A) (y : A) : A :=
  if Qeq_bool x 0 then y else number x.

(** The callback [(time, note) => { ... }] given to every part; it reads
    [instruments] when it fires. *)
Definition callback (s : engine) (time : Q) (note : Api.NoteEvent) : completion :=
  if negb (truthy (get (instruments s) (Api.instrument note))) then
    {| effects := [ConsoleError ("Instrument " ++ Api.instrument note ++ " not found")];
       thrown := None |}
  else
    triggerAttackRelease (get (instruments s) (Api.instrument note))
      (Api.note note)
      (or_else (Api.duration note) Tone.Num (Tone.Notated "8n"))
      (Some time)
      (Some (or_else (Api.velocity note) id 1%Q)).

(** [stopPattern()] *)
Definition stopPattern (s : engine) : engine :=
  {| instruments := instruments s;
     eq := eq s;
     currentPattern := None;
     patternParts := ∅;
     transport := Tone.set_position 0 (Tone.stop (transport s)) |}.

(** The part built for one pattern type. *)
Definition make_part (notes : list Api.NoteEvent) : Tone.Part :=
  Tone.Part_set_loopEnd (Tone.Num 16)
    (Tone.Part_set_loop true
      (Tone.Part_start (Tone.Num 0)
        (Tone.new_Part (map (fun note => (Api.time note, note)) notes)))).

(** [playPattern(pattern)], for a pattern none of whose tracks is named
    [__proto__] (the backend names tracks by the four block keywords):
    under that name the assignment to [patternParts] would set the
    prototype of the object and make no entry. *)
Definition playPattern (pattern : Api.Pattern) (s : engine) : engine :=
  let s := stopPattern s in
  {| instruments := instruments s;
     eq := eq s;
     currentPattern := Some pattern;
     patternParts := (make_part <$> Api.patterns pattern) ∪ patternParts s;
     transport := Tone.start (transport s) |}.

(** A pattern without a track named [__proto__]. *)
Definition plain (pattern : Api.Pattern) : Prop :=
  Api.patterns pattern !! "__proto__" = None.

(** [pausePattern()] *)
Definition pausePattern (s : engine) : engine :=
  {| instruments := instruments s;
     eq := eq s;
     currentPattern := currentPattern s;
     patternParts := patternParts s;
     transport := Tone.pause (transport s) |}.

(** [setBpm(bpm)]: Tone.js refuses a negative tempo with a [RangeError],
    which the [catch] logs; the tempo then stays as it was. *)
Definition setBpm (bpm : Q) (s : engine) : engine :=
  {| instruments := instruments s;
     eq := eq s;
     currentPattern := currentPattern s;
     patternParts := patternParts s;
     transport :=
       if Qle_bool 0 bpm then Tone.set_bpm bpm (transport s)
       else transport s |}.

(** Time passing on the engine's transport. *)
Definition clock_at (p : Q) (s : engine) : engine :=
  {| instruments := instruments s;
     eq := eq s;
     currentPattern := currentPattern s;
     patternParts := patternParts s;
     transport := Tone.run_to p (transport s) |}.

End AudioEngine.

(** ** The transport controls, [frontend/components/Transport.jsx] *)

Module TransportControls.

(** The fields of the studio store the controls use. *)
Record store := {
  parsedPattern : option Api.Pattern;
  isPlaying : bool;
  currentTime : Q;
  bpm : Q
}.

Definition app : Type := store * AudioEngine.engine.

(** [handlePlay] *)
Definition handlePlay (a : app) : app :=
  match parsedPattern (fst a) with
  | Some pattern =>
      ({| parsedPattern := parsedPattern (fst a); isPlaying := true;
          currentTime := currentTime (fst a); bpm := bpm (fst a) |},
       AudioEngine.playPattern pattern (snd a))
  | None => a
  end.


(** [handlePause] *)
Definition handlePause (a : app) : app :=
  ({| parsedPattern := parsedPattern (fst a); isPlaying := false;
      currentTime := currentTime (fst a); bpm := bpm (fst a) |},
   AudioEngine.pausePattern (snd a)).

End TransportControls.

(** ** Notions of the specification *)

Module Spec.

(** Adjacent events are in time order. *)
Fixpoint time_sorted (evs : list Api.NoteEvent) : Prop :=
  match evs with
  | a :: (b :: _) as rest => (Api.time a <= Api.time b)%Q /\ time_sorted rest
  | _ => True
  end.

(** The events of all tracks of a document. *)
Definition all_events (doc : Api.Pattern) : list Api.NoteEvent :=
  concat (snd <$> map_to_list (Api.patterns doc)).

Definition Qmax (a b : Q) : Q := if Qle_bool a b then b else a.

Definition event_end (e : Api.NoteEvent) : Q :=
  Qred (Api.time e + Api.duration e).

(** The loop length in the words of the specification: the maximum of
    [time + duration] over the events of all tracks, and the fallback of 16
    beats for a document without events. *)
Definition spec_loop_length (doc : Api.Pattern) : Q :=
  match all_events doc with
  | [] => 16
  | e :: es => fold_left (fun m e' => Qmax m (event_end e')) es (event_end e)
  end.


(** The programs of the examples. *)
Definition three_notes : string :=
  "melody { piano C4 0; piano E4 0.5; piano G4 1.0; }".

Definition out_of_order : string :=
  "melody { piano C4 1; piano E4 0; }".

Definition two_melodies : string :=
  "melody { piano C4 0; } melody { piano E4 1; }".

Definition inherited_name : string :=
  "melody { toString C4 0; }".

Definition event (i n : string) (t : Q) : Api.NoteEvent :=
  {| Api.instrument := i; Api.note := n; Api.time := t;
     Api.velocity := 1; Api.duration := 1 # 2 |}.

(** A document whose only event lies beyond beat 16. *)
Definition late_note : Api.Pattern :=
  {| Api.imports := [];
     Api.patterns := {[ "melody" := [event "piano" "C4" 20] ]} |}.

End Spec.

(** ** The alphabet of the grammar and views of its trees *)

Module Grammar.
Import Lexer.

(** The punctuation some terminal holds: the accidental of a note, the
    decimal point, the quotes of a module name, the braces and the
    semicolon. *)
Definition punctuation : list ascii :=
  ["#"; "."; "034"; "{"; "}"; ";"]%char.

(** The characters a terminal of the grammar, or the ignored white space,
    can hold. *)
Definition in_alphabet (c : ascii) : bool :=
  is_ws c || is_ident_char c || existsb (Ascii.eqb c) punctuation.

(** A parser eats: what it takes off the input on success is written in
    the alphabet. *)
Definition eats {A} (p : Lark.parser A) : Prop :=
  forall s x r,
    p s = Lark.Ok x r -> exists c, s = c ++ r /\ forallb in_alphabet c = true.

(** A module name token: an identifier between double quotes. *)
Definition quoted (name : string) : string :=
  String "034" (name ++ String "034" EmptyString).

(** A terminal whose tokens are written in the alphabet. *)
Definition token_in_alphabet (T : chars -> option (chars * chars)) : Prop :=
  forall s a r, T s = Some (a, r) -> forallb in_alphabet a = true.

(** Subtrees as the parsing functions build them. *)
Definition parsed_statement (st : Lark.statement_tree) : Prop :=
  exists s r, Lark.statement s = Lark.Ok st r.

Definition parsed_import (i : Lark.import_tree) : Prop :=
  exists s r, Lark.import_statement s = Lark.Ok i r.

Definition parsed_block (b : Lark.block_tree) : Prop :=
  Lark.bl_type b ∈ block_types
  /\ Forall parsed_statement (Lark.bl_statements b).

Definition parsed_child (c : Lark.child) : Prop :=
  match c with
  | Lark.ImportStatement i => parsed_import i
  | Lark.PatternBlock b => parsed_block b
  end.

(** The imports and the blocks of a tree, in order. *)
Definition imports_of (t : Lark.tree) : list Lark.import_tree :=
  omap (fun c => match c with Lark.ImportStatement i => Some i | _ => None end) t.

Definition blocks_of (t : Lark.tree) : list Lark.block_tree :=
  omap (fun c => match c with Lark.PatternBlock b => Some b | _ => None end) t.

Definition is_white (s : string) : Prop :=
  forallb is_ws (list_ascii_of_string s) = true.

(** The block dicts among the items [start] receives, what
    [transform_child] makes of a block, and the loop of [start] over block
    dicts alone. *)
Definition block_dicts (items : list PatternTransformer.item)
    : list PatternTransformer.block_dict :=
  omap (fun it => match it with
                  | PatternTransformer.BlockItem b => Some b
                  | _ => None
                  end) items.

Definition import_dicts (items : list PatternTransformer.item)
    : list PatternTransformer.import_dict :=
  omap (fun it => match it with
                  | PatternTransformer.ImportItem i => Some i
                  | _ => None
                  end) items.

Definition block_dict_of (b : Lark.block_tree)
    : option PatternTransformer.block_dict :=
  sts ← mapM PatternTransformer.statement (Lark.bl_statements b);
  Some (PatternTransformer.BlockDict (Lark.bl_type b) sts).

Definition patterns_of_blocks (bs : list PatternTransformer.block_dict)
    (m : gmap string (list PatternTransformer.statement_dict))
    : gmap string (list PatternTransformer.statement_dict) :=
  fold_left (fun m b => <[PatternTransformer.block_type b
                          := PatternTransformer.statements b]> m) bs m.

End Grammar.

(** ** The rest of [frontend/utils/audioEngine.js] *)

Module EngineOps.
Import AudioEngine.

(** The argument of [updateEq]: the gains of the three bands. *)
Record eq_settings := {
  set_low : Q;
  set_mid : Q;
  set_high : Q
}.

Definition with_eq (m : gmap string (option Tone.EQ3)) (s : engine) : engine :=
  {| instruments := instruments s;
     eq := m;
     currentPattern := currentPattern s;
     patternParts := patternParts s;
     transport := transport s |}.

(** [eq.band.param.value = v]: [None] is the [TypeError] of reading a
    property of [null] (or of [undefined]). *)
Definition set_band (band : string) (f : Tone.EQ3 -> Tone.EQ3)
    (m : gmap string (option Tone.EQ3)) : option (gmap string (option Tone.EQ3)) :=
  match m !! band with
  | Some (Some b) => Some (<[band := Some (f b)]> m)
  | _ => None
  end.

Definition low_value (v : Q) (b : Tone.EQ3) : Tone.EQ3 :=
  {| Tone.low := v; Tone.mid := Tone.mid b; Tone.high := Tone.high b |}.
Definition mid_value (v : Q) (b : Tone.EQ3) : Tone.EQ3 :=
  {| Tone.low := Tone.low b; Tone.mid := v; Tone.high := Tone.high b |}.
Definition high_value (v : Q) (b : Tone.EQ3) : Tone.EQ3 :=
  {| Tone.low := Tone.low b; Tone.mid := Tone.mid b; Tone.high := v |}.

Definition eq_error : completion :=
  {| effects := [ConsoleError "Error updating EQ:"]; thrown := None |}.

Definition quiet : completion := {| effects := []; thrown := None |}.

(** [updateEq(eqSettings)]: the three assignments in turn; the first that
    throws ends the [try] block, and what was assigned before it stays. *)
Definition updateEq (e : eq_settings) (s : engine) : engine * completion :=
  match set_band "low" (low_value (set_low e)) (eq s) with
  | None => (s, eq_error)
  | Some m1 =>
      match set_band "mid" (mid_value (set_mid e)) m1 with
      | None => (with_eq m1 s, eq_error)
      | Some m2 =>
          match set_band "high" (high_value (set_high e)) m2 with
          | None => (with_eq m2 s, eq_error)
          | Some m3 => (with_eq m3 s, quiet)
          end
      end
  end.

(** [cleanupAudio()]: the pattern is stopped, the instruments and bands
    that exist are disposed of, and both tables are set back to their
    literals; the second component is the line of [console.log]. *)
Definition cleanupAudio (s : engine) : engine * list string :=
  ({| instruments := {[ "piano" := None; "synth" := None; "guitar" := None ]};
      eq := {[ "low" := None; "mid" := None; "high" := None ]};
      currentPattern := currentPattern (stopPattern s);
      patternParts := patternParts (stopPattern s);
      transport := transport (stopPattern s) |},
   ["Audio engine cleaned up"]).

(** The notes a call hands to a sampler. *)
Definition sounded (c : completion) : list effect :=
  List.filter
    (fun e => match e with TriggerAttackRelease _ _ _ _ _ => true | _ => false end)
    (effects c).

(** What can happen to the module: its exported functions are called, and
    time passes on the transport. *)
Inductive command :=
| InitAudio
| PlayNote (instrumentName note : string)
| UpdateEq (e : eq_settings)
| PlayPattern (pattern : Api.Pattern)
| StopPattern
| PausePattern
| SetBpm (bpm : Q)
| CleanupAudio
| Elapse (p : Q).

Definition step (s : engine) (c : command) : engine :=
  match c with
  | InitAudio => initAudio s
  | PlayNote i n => fst (playNote i n s)
  | UpdateEq e => fst (updateEq e s)
  | PlayPattern pattern => playPattern pattern s
  | StopPattern => stopPattern s
  | PausePattern => pausePattern s
  | SetBpm b => setBpm b s
  | CleanupAudio => fst (cleanupAudio s)
  | Elapse p => clock_at p s
  end.

(** The engine after a session that starts from the loaded module. *)
Definition run (cs : list command) : engine := fold_left step cs initial.

(** A command that plays no pattern with a track named [__proto__]. *)
Definition plain_command (c : command) : Prop :=
  match c with
  | PlayPattern pattern => plain pattern
  | _ => True
  end.

(** The parts that belong to a current pattern. *)
Definition parts_of (current : option Api.Pattern) : gmap string Tone.Part :=
  match current with
  | Some pattern => make_part <$> Api.patterns pattern
  | None => ∅
  end.

(** The samplers [initAudio] asks for, by name. *)
Definition catalog : list (string * Tone.Sampler) :=
  [("piano", piano); ("synth", synth); ("guitar", guitar)].

(** The commands whose code sets the tempo: [setBpm] and [initAudio]. *)
Definition keeps_tempo (c : command) : bool :=
  match c with
  | InitAudio | SetBpm _ => false
  | _ => true
  end.

(** The parts, the current pattern and the clock agree: the parts are
    those of the current pattern, a pattern is current exactly while the
    transport is not stopped, and a stopped clock stands at 0. *)
Definition consistent (s : engine) : Prop :=
  patternParts s = parts_of (currentPattern s)
  /\ (is_Some (currentPattern s) <-> Tone.state (transport s) <> Tone.stopped)
  /\ (Tone.state (transport s) = Tone.stopped ->
      Tone.position (transport s) = 0%Q).

Definition names : list string := ["piano"; "synth"; "guitar"].

(** The instrument table holds the three names, each empty or with the
    sampler of the catalog. *)
Definition catalogued (s : engine) : Prop :=
  forall name,
    match instruments s !! name with
    | Some (Some sampler) => (name, sampler) ∈ catalog
    | Some None => name ∈ names
    | None => name ∉ names
    end.

Definition bands : list string := ["low"; "mid"; "high"].

(** The three EQ bands are all absent or all present. *)
Definition bands_uniform (s : engine) : Prop :=
  (forall k, k ∈ bands -> eq s !! k = Some None)
  \/ (forall k, k ∈ bands -> exists b, eq s !! k = Some (Some b)).

(** An event with its velocity replaced. *)
Definition with_velocity (v : Q) (e : Api.NoteEvent) : Api.NoteEvent :=
  {| Api.instrument := Api.instrument e; Api.note := Api.note e;
     Api.time := Api.time e; Api.velocity := v;
     Api.duration := Api.duration e |}.

End EngineOps.

(** ** A session at the transport controls *)

Module StudioSession.
Import TransportControls.





End StudioSession.

(** ** [frontend/utils/apiClient.js] and the pattern editor *)

Module ApiClient.

(** How an async function settles. *)
Inductive settled (A : Type) :=
| Resolves (x : A)
| Rejects (message : string).
Arguments Resolves {A} x.
Arguments Rejects {A} message.

(** [parsePattern], from the decoded body [data] of the response on:
    [data.pattern] when [data.success], else an [Error] with [data.error],
    or with the fallback text when that is null or empty. *)
Definition parsePattern_of (data : Api.ParseResponse) : settled (option Api.Pattern) :=
  if negb (Api.success data) then
    Rejects (match Api.error data with
             | Some (String c m) => String c m
             | _ => "Failed to parse pattern"
             end)
  else Resolves (Api.pattern data).

(** The message with which the request then rejects: that of the
    [SyntaxError] of [response.json()] on the body of the answer 500,
    which is not JSON (in a browser that refuses the answer for its
    missing CORS headers, that of the [TypeError] of [fetch]).  The text
    differs between JS engines; it is never empty. *)
Definition not_json : string :=
  "Unexpected token I in JSON at position 0".

(** [parsePattern(patternCode)] against the backend, which answers; [None]
    would be a request that is never answered.  A response that cannot be
    rendered reaches the client as the answer 500, whose body
    [response.json()] refuses. *)
Definition parsePattern (patternCode : string) : option (settled (option Api.Pattern)) :=
  response ← Api.parse_pattern patternCode;
  match Api.render response with
  | Some data => Some (parsePattern_of data)
  | None => Some (Rejects not_json)
  end.

(** A program whose timestamp has 400 digits. *)
Definition huge_timestamp : string :=
  "melody { piano C4 1" ++ string_of_list_ascii (repeat "0"%char 399) ++ "; }".

End ApiClient.

Module PatternEditor.
Import ApiClient.

Definition newline : string := String "010" EmptyString.

(** [DEFAULT_PATTERN] *)
Definition DEFAULT_PATTERN : string :=
  "import piano from " ++ Grammar.quoted "pianoset" ++ ";" ++ newline
  ++ "import synth from " ++ Grammar.quoted "synthset" ++ ";" ++ newline
  ++ newline
  ++ "melody {" ++ newline
  ++ "    piano C4 0;" ++ newline
  ++ "    piano E4 0.5;" ++ newline
  ++ "    piano G4 1.0;" ++ newline
  ++ "}" ++ newline
  ++ newline
  ++ "rhythm {" ++ newline
  ++ "    synth Kick 0;" ++ newline
  ++ "    synth Snare 0.5;" ++ newline
  ++ "    synth Kick 1.0;" ++ newline
  ++ "}".

(** The two blocks of [DEFAULT_PATTERN], without its imports. *)
Definition default_blocks : string :=
  "melody { piano C4 0; piano E4 0.5; piano G4 1.0; }"
  ++ " rhythm { synth Kick 0; synth Snare 0.5; synth Kick 1.0; }".

(** The parse tree of [DEFAULT_PATTERN]. *)
Definition default_tree : Lark.tree :=
  [ Lark.ImportStatement (Lark.Import "piano" (Grammar.quoted "pianoset"));
    Lark.ImportStatement (Lark.Import "synth" (Grammar.quoted "synthset"));
    Lark.PatternBlock (Lark.Block "melody"
      [ Lark.Statement "piano" "C4" "0"; Lark.Statement "piano" "E4" "0.5";
        Lark.Statement "piano" "G4" "1.0" ]);
    Lark.PatternBlock (Lark.Block "rhythm"
      [ Lark.Statement "synth" "Kick" "0"; Lark.Statement "synth" "Snare" "0.5";
        Lark.Statement "synth" "Kick" "1.0" ]) ].

(** The state the editor reads and writes: the code and the parsed
    pattern of the store, and its own [error] and [isLoading]. *)
Record editor := {
  patternCode : string;
  parsedPattern : option Api.Pattern;
  error : option string;
  isLoading : bool
}.

(** [patternCode || DEFAULT_PATTERN] *)
Definition code_to_parse (patternCode : string) : string :=
  match patternCode with
  | EmptyString => DEFAULT_PATTERN
  | _ => patternCode
  end.

(** [handleParsePattern], once the request has settled. *)
Definition handleParsePattern (ed : editor) : option editor :=
  r ← parsePattern (code_to_parse (patternCode ed));
  match r with
  | Resolves pattern =>
      Some {| patternCode := patternCode ed; parsedPattern := pattern;
              error := None; isLoading := false |}
  | Rejects message =>
      Some {| patternCode := patternCode ed;
              parsedPattern := parsedPattern ed;
              error := Some message; isLoading := false |}
  end.

End PatternEditor.

(** * Properties of the parser *)

Module LarkFacts.
Import Lexer Lark.
Import PatternTransformer (decimal, decimal_block).

(** What a greedy scan splits off is a prefix of the input. *)
Lemma take_while_app p s a r : take_while p s = (a, r) -> s = a ++ r.
Proof.
  revert a r. induction s as [|c s IH]; simpl; intros a r H.
  - by inversion H.
  - destruct (p c).
    + destruct (take_while p s) as [a' r'] eqn:E. inversion H; subst.
      simpl. f_equal. by apply IH.
    + by inversion H.
Qed.

Lemma skip_ws_length s : length (skip_ws s) <= length s.
Proof.
  unfold skip_ws. destruct (take_while is_ws s) as [a r] eqn:E.
  apply take_while_app in E. subst. simpl. rewrite length_app. lia.
Qed.

Lemma lit_app l s r : lit l s = Some r -> s = l ++ r.
Proof.
  revert s. induction l as [|a l IH]; intros [|c s] H; simpl in *;
    try by inversion H.
  destruct (Ascii.eqb a c) eqn:E; [|done].
  apply Ascii.eqb_eq in E. subst. f_equal. by apply IH.
Qed.

Lemma INSTRUMENT_prefix : prefix_terminal INSTRUMENT.
Proof.
  intros [|c s] a r H; simpl in H; [done|].
  destruct (is_ident_start c); [|done].
  destruct (take_while is_ident_char s) as [a' r'] eqn:E.
  inversion H; subst. apply take_while_app in E. by subst.
Qed.

Lemma pitched_prefix : prefix_terminal pitched.
Proof.
  intros s a r H. unfold pitched in H.
  repeat match type of H with
         | match ?x with _ => _ end = _ => destruct x; try done
         | (if ?b then _ else _) = _ => destruct b; try done
         end; by inversion H.
Qed.

Lemma NOTE_prefix : prefix_terminal NOTE.
Proof.
  intros s a r H. unfold NOTE in H.
  destruct (pitched s) as [m|] eqn:E.
  - inversion H; subst. by apply pitched_prefix.
  - destruct (take_while is_alpha s) as [[|c a'] r'] eqn:E'; [done|].
    inversion H; subst. apply take_while_app in E'. by subst.
Qed.

Lemma TIMESTAMP_prefix : prefix_terminal TIMESTAMP.
Proof.
  intros s a r H. unfold TIMESTAMP in H.
  destruct (take_while is_digit s) as [[|d ip] r0] eqn:E; [done|].
  apply take_while_app in E. subst s.
  destruct r0 as [|c r']; [by inversion H|].
  destruct (Ascii.eqb c "."); [|by inversion H].
  destruct (take_while is_digit r') as [[|f fp] r''] eqn:E';
    [by inversion H|].
  apply take_while_app in E'. inversion H; subst. split; [done|].
  simpl. by rewrite <- app_assoc.
Qed.

Lemma first_lit_prefix ls s a r :
  Forall (fun l => l <> "") ls ->
  first_lit ls s = Some (a, r) -> a <> [] /\ s = a ++ r.
Proof.
  induction 1 as [|l ls Hl _ IH]; simpl; [done|].
  destruct (lit (list_ascii_of_string l) s) as [r0|] eqn:E; [|done].
  intros H; inversion H; subst. apply lit_app in E. split; [|done].
  destruct l; [done|]. done.
Qed.

Lemma BLOCK_TYPE_prefix : prefix_terminal BLOCK_TYPE.
Proof.
  intros s a r. apply first_lit_prefix. unfold block_types.
  repeat constructor; done.
Qed.

Lemma MODULE_NAME_prefix : prefix_terminal MODULE_NAME.
Proof.
  intros [|q s] a r H; simpl in H; [done|].
  destruct (Ascii.eqb q "034"); [|done].
  destruct (INSTRUMENT s) as [[a0 [|q' r']]|] eqn:E; try done.
  destruct (Ascii.eqb q' "034"); [|done].
  apply INSTRUMENT_prefix in E as [_ ->]. inversion H; subst.
  split; [done|]. simpl. by rewrite <- app_assoc.
Qed.

(** *** The rest of the input shrinks *)

Lemma bind_Ok {A B} (p : parser A) (k : A -> parser B) s y r :
  bind p k s = Ok y r -> exists x r1, p s = Ok x r1 /\ k x r1 = Ok y r.
Proof. unfold bind. destruct (p s); [eauto|done..]. Qed.

Lemma bind_OutOfFuel {A B} (p : parser A) (k : A -> parser B) s :
  bind p k s = OutOfFuel ->
  p s = OutOfFuel \/ exists x r1, p s = Ok x r1 /\ k x r1 = OutOfFuel.
Proof. unfold bind. destruct (p s); [eauto|done|eauto]. Qed.

Lemma tok_Ok T s x r :
  prefix_terminal T -> tok T s = Ok x r -> length r < length s.
Proof.
  intros HT. unfold tok. pose proof (skip_ws_length s) as Hs.
  destruct (T (skip_ws s)) as [[a r0]|] eqn:E; [|done].
  intros H; inversion H; subst. apply HT in E as [Ha E]. rewrite E in Hs.
  rewrite length_app in Hs. destruct a; [done|]. simpl in Hs. lia.
Qed.

Lemma tok_fuel T s : tok T s <> OutOfFuel.
Proof. unfold tok. by destruct (T (skip_ws s)) as [[a r0]|]. Qed.

Lemma sym_Ok l s x r :
  sym l s = Ok x r -> length r + String.length l <= length s.
Proof.
  unfold sym. pose proof (skip_ws_length s) as Hs.
  destruct (lit _ (skip_ws s)) as [r0|] eqn:E; [|done].
  intros H; inversion H; subst. apply lit_app in E. rewrite E in Hs.
  rewrite length_app in Hs.
  assert (length (list_ascii_of_string l) = String.length l) as <-; [|lia].
  clear. induction l; simpl; congruence.
Qed.

Lemma sym_fuel l s : sym l s <> OutOfFuel.
Proof. unfold sym. by destruct (lit _ (skip_ws s)). Qed.

Ltac split_bind H :=
  let x := fresh "x" in
  let r := fresh "r" in
  let H1 := fresh "H" in
  apply bind_Ok in H as (x & r & H1 & H).

Lemma statement_Ok s x r : statement s = Ok x r -> length r < length s.
Proof.
  unfold statement. intros H. do 4 split_bind H.
  apply tok_Ok in H0; [|apply INSTRUMENT_prefix].
  apply tok_Ok in H1; [|apply NOTE_prefix].
  apply tok_Ok in H2; [|apply TIMESTAMP_prefix].
  apply sym_Ok in H3. inversion H; subst. lia.
Qed.

Lemma statement_fuel s : statement s <> OutOfFuel.
Proof.
  unfold statement. intros H.
  repeat (apply bind_OutOfFuel in H as [H|(? & ? & _ & H)];
          [by (apply tok_fuel in H || apply sym_fuel in H)|]).
  done.
Qed.

Lemma statements_Ok fuel s x r :
  statements fuel s = Ok x r -> length r < length s.
Proof.
  revert s x r. induction fuel as [|fuel IH]; intros s x r; [done|].
  cbn [statements]. pose proof (skip_ws_length s) as Hs.
  destruct (lit _ (skip_ws s)) as [r0|] eqn:E.
  - intros H; inversion H; subst. apply lit_app in E. rewrite E in Hs.
    simpl in Hs. lia.
  - intros H. do 2 split_bind H. apply statement_Ok in H0.
    apply IH in H1. inversion H; subst. lia.
Qed.

Lemma statements_fuel fuel s :
  length s < fuel -> statements fuel s <> OutOfFuel.
Proof.
  revert s. induction fuel as [|fuel IH]; intros s Hlt; [lia|].
  cbn [statements]. destruct (lit _ (skip_ws s)); [done|]. intros H.
  apply bind_OutOfFuel in H as [H|(st & r1 & H1 & H)];
    [by apply statement_fuel in H|].
  apply statement_Ok in H1.
  apply bind_OutOfFuel in H as [H|(? & ? & _ & H)]; [|done].
  revert H. apply IH. lia.
Qed.

Lemma pattern_block_Ok fuel s x r :
  pattern_block fuel s = Ok x r -> length r < length s.
Proof.
  unfold pattern_block. intros H. do 3 split_bind H.
  apply tok_Ok in H0; [|apply BLOCK_TYPE_prefix].
  apply sym_Ok in H1. apply statements_Ok in H2. inversion H; subst. lia.
Qed.

Lemma pattern_block_fuel fuel s :
  length s <= fuel -> pattern_block fuel s <> OutOfFuel.
Proof.
  unfold pattern_block. intros Hle H.
  apply bind_OutOfFuel in H as [H|(b & r1 & H1 & H)];
    [by apply tok_fuel in H|].
  apply tok_Ok in H1; [|apply BLOCK_TYPE_prefix].
  apply bind_OutOfFuel in H as [H|(? & r2 & H2 & H)];
    [by apply sym_fuel in H|].
  apply sym_Ok in H2.
  apply bind_OutOfFuel in H as [H|(? & ? & _ & H)]; [|done].
  revert H. apply statements_fuel. lia.
Qed.

Lemma pattern_blocks_fuel fuel s :
  length s < fuel -> pattern_blocks fuel s <> OutOfFuel.
Proof.
  revert s. induction fuel as [|fuel IH]; intros s Hlt; [lia|].
  cbn [pattern_blocks]. intros H.
  apply bind_OutOfFuel in H as [H|(b & r1 & H1 & H)].
  - revert H. apply pattern_block_fuel. lia.
  - apply pattern_block_Ok in H1. destruct (skip_ws r1); [done|].
    apply bind_OutOfFuel in H as [H|(? & ? & _ & H)]; [|done].
    revert H. apply IH. lia.
Qed.

Lemma import_statement_Ok s x r :
  import_statement s = Ok x r -> length r < length s.
Proof.
  unfold import_statement. intros H. do 5 split_bind H.
  apply sym_Ok in H0, H2, H4.
  apply tok_Ok in H1; [|apply INSTRUMENT_prefix].
  apply tok_Ok in H3; [|apply MODULE_NAME_prefix].
  inversion H; subst. lia.
Qed.

Lemma import_statement_fuel s : import_statement s <> OutOfFuel.
Proof.
  unfold import_statement. intros H.
  repeat (apply bind_OutOfFuel in H as [H|(? & ? & _ & H)];
          [by (apply tok_fuel in H || apply sym_fuel in H)|]).
  done.
Qed.

Lemma import_statements_Ok fuel s x r :
  import_statements fuel s = Ok x r -> length r <= length s.
Proof.
  revert s x r. induction fuel as [|fuel IH]; intros s x r; [done|].
  cbn [import_statements]. destruct (lit _ (skip_ws s)).
  - intros H. do 2 split_bind H. apply import_statement_Ok in H0.
    apply IH in H1. inversion H; subst. lia.
  - intros H; inversion H; subst. lia.
Qed.

Lemma import_statements_fuel fuel s :
  length s < fuel -> import_statements fuel s <> OutOfFuel.
Proof.
  revert s. induction fuel as [|fuel IH]; intros s Hlt; [lia|].
  cbn [import_statements]. destruct (lit _ (skip_ws s)); [|done]. intros H.
  apply bind_OutOfFuel in H as [H|(i & r1 & H1 & H)];
    [by apply import_statement_fuel in H|].
  apply import_statement_Ok in H1.
  apply bind_OutOfFuel in H as [H|(? & ? & _ & H)]; [|done].
  revert H. apply IH. lia.
Qed.

(** [pattern_parser.parse] returns on every input: a tree or an
    exception. *)
Lemma parse_total text : is_Some (parse text).
Proof.
  unfold parse.
  destruct (start _ _) as [t r|[|c r]|] eqn:E; [done..|].
  exfalso. unfold start, fuel_for in E.
  apply bind_OutOfFuel in E as [H|(ims & r1 & H1 & H)].
  - revert H. apply import_statements_fuel. lia.
  - apply import_statements_Ok in H1.
    apply bind_OutOfFuel in H as [H|(? & ? & _ & H)]; [|done].
    revert H. apply pattern_blocks_fuel. lia.
Qed.

(** *** Shape of the tree *)

Lemma pattern_blocks_nonempty fuel s bs r :
  pattern_blocks fuel s = Ok bs r -> bs <> [].
Proof.
  destruct fuel as [|fuel]; [done|]. cbn [pattern_blocks]. intros H.
  split_bind H. destruct (skip_ws r0).
  - by inversion H.
  - split_bind H. by inversion H.
Qed.

(** A tree is the imports followed by at least one block. *)
Lemma parse_shape text t :
  parse text = Some (inl t) ->
  exists ims bs,
    t = map ImportStatement ims ++ map PatternBlock bs /\ bs <> [].
Proof.
  unfold parse. destruct (start _ _) as [t' r|[|c r]|] eqn:E; try done.
  intros H; inversion H; subst. unfold start in E. do 2 split_bind E.
  inversion E; subst. apply pattern_blocks_nonempty in H1. eauto.
Qed.

(** *** TIMESTAMP tokens are decimal literals *)

Lemma take_while_spec p s a r :
  take_while p s = (a, r) -> forallb p a = true /\ stops p r.
Proof.
  revert a r. induction s as [|c s IH]; simpl; intros a r H.
  - by inversion H.
  - destruct (p c) eqn:Hc.
    + destruct (take_while p s) as [a' r'] eqn:E. inversion H; subst.
      destruct (IH _ _ eq_refl) as [Ha Hr]. simpl. by rewrite Hc, Ha.
    + inversion H; subst. simpl. by rewrite Hc.
Qed.

Lemma take_while_eq p a r :
  forallb p a = true -> stops p r -> take_while p (a ++ r) = (a, r).
Proof.
  induction a as [|c a IH]; simpl; intros Ha Hr.
  - destruct r as [|c r]; [done|]. simpl in *. by rewrite Hr.
  - apply andb_prop in Ha as [Hc Ha]. by rewrite Hc, IH.
Qed.

Lemma TIMESTAMP_decimal s a r :
  TIMESTAMP s = Some (a, r) -> decimal (string_of_list_ascii a).
Proof.
  assert (Hint : forall ip, ip <> [] -> forallb is_digit ip = true ->
                       decimal (string_of_list_ascii ip)).
  { intros ip Hne Hip. unfold decimal, PatternTransformer.float.
    rewrite list_ascii_of_string_of_list_ascii.
    rewrite <- (app_nil_r ip) at 1. rewrite take_while_eq by done.
    by destruct ip. }
  unfold TIMESTAMP.
  destruct (take_while is_digit s) as [[|d ip] r0] eqn:E; [done|].
  apply take_while_spec in E as [Hip _].
  destruct r0 as [|c r']; [intros H; inversion H; subst; by apply Hint|].
  destruct (Ascii.eqb c ".") eqn:Hc;
    [|intros H; inversion H; subst; by apply Hint].
  destruct (take_while is_digit r') as [[|f fp] r''] eqn:E';
    [intros H; inversion H; subst; by apply Hint|].
  apply take_while_spec in E' as [Hfp _].
  intros H; inversion H; subst. apply Ascii.eqb_eq in Hc. subst c.
  unfold decimal, PatternTransformer.float.
  rewrite list_ascii_of_string_of_list_ascii.
  change (d :: ip ++ "."%char :: f :: fp)
    with ((d :: ip) ++ "."%char :: f :: fp).
  rewrite take_while_eq by done. simpl Ascii.eqb. cbv iota.
  rewrite <- (app_nil_r (f :: fp)) at 1. by rewrite take_while_eq.
Qed.

Lemma statement_decimal s st r :
  statement s = Ok st r -> decimal (st_timestamp st).
Proof.
  unfold statement. intros H. do 4 split_bind H. inversion H; subst. simpl.
  unfold tok in H2. destruct (TIMESTAMP _) as [[a r']|] eqn:E; [|done].
  inversion H2; subst. by apply TIMESTAMP_decimal in E.
Qed.

Lemma statements_decimal fuel s sts r :
  statements fuel s = Ok sts r ->
  Forall (fun st => decimal (st_timestamp st)) sts.
Proof.
  revert s sts r. induction fuel as [|fuel IH]; intros s sts r; [done|].
  cbn [statements]. destruct (lit _ (skip_ws s)).
  - intros H; inversion H; subst. constructor.
  - intros H. do 2 split_bind H. inversion H; subst. constructor.
    + by apply statement_decimal in H0.
    + by apply IH in H1.
Qed.

Lemma pattern_blocks_decimal fuel s bs r :
  pattern_blocks fuel s = Ok bs r -> Forall decimal_block bs.
Proof.
  revert s bs r. induction fuel as [|fuel IH]; intros s bs r; [done|].
  cbn [pattern_blocks]. intros H. split_bind H.
  assert (decimal_block x) as Hx.
  { unfold pattern_block in H0. do 3 split_bind H0. inversion H0; subst.
    by apply statements_decimal in H3. }
  destruct (skip_ws r0).
  - inversion H; subst. by repeat constructor.
  - split_bind H. inversion H; subst. constructor; [done|].
    by apply IH in H1.
Qed.

(** No callback of the transformer raises on a tree of the parser: a
    [VisitError] never comes out of [transform]. *)
Lemma transform_total text t :
  parse text = Some (inl t) -> is_Some (PatternTransformer.transform t).
Proof.
  unfold parse. destruct (start _ _) as [t' r|[|c r]|] eqn:E; try done.
  intros H; inversion H; subst. unfold start in E. do 2 split_bind E.
  inversion E; subst. apply pattern_blocks_decimal in H1.
  unfold PatternTransformer.transform.
  assert (is_Some (mapM PatternTransformer.transform_child
            (map ImportStatement x ++ map PatternBlock x0))) as [items ->];
    [|done].
  apply mapM_is_Some. apply Forall_app. split.
  - apply Forall_forall. intros c Hc. apply list_elem_of_In in Hc.
    apply in_map_iff in Hc as (i & <- & _). by eexists.
  - apply Forall_forall. intros c Hc. apply list_elem_of_In in Hc.
    apply in_map_iff in Hc as (b & <- & Hb). unfold compose. simpl.
    rewrite Forall_forall in H1. apply list_elem_of_In, H1 in Hb.
    assert (is_Some (mapM PatternTransformer.statement (bl_statements b)))
      as [sts ->]; [|done].
    apply mapM_is_Some. eapply Forall_impl; [exact Hb|].
    intros st [q Hq]. unfold compose, PatternTransformer.statement.
    rewrite Hq. by eexists.
Qed.

End LarkFacts.

(** * Properties of the transformer and of the endpoint *)

Module TransformerFacts.
Import PatternTransformer.

Lemma fold_start_no_block items acc bt :
  (forall b, BlockItem b ∈ items -> block_type b <> bt) ->
  pd_patterns (fold_left start_step items acc) !! bt = pd_patterns acc !! bt.
Proof.
  revert acc. induction items as [|it items IH]; intros acc Hno; [done|].
  simpl. rewrite IH by (intros b Hb; apply Hno; by right).
  destruct it as [i|b]; simpl; [done|].
  apply lookup_insert_ne. apply Hno. by left.
Qed.

(** The last block of a type is the one [start] keeps. *)
Lemma start_last_block items1 b items2 :
  (forall b', BlockItem b' ∈ items2 -> block_type b' <> block_type b) ->
  pd_patterns (start (items1 ++ BlockItem b :: items2)) !! block_type b
  = Some (statements b).
Proof.
  intros Hno. unfold start. rewrite fold_left_app. simpl.
  rewrite fold_start_no_block by done. simpl. apply lookup_insert_eq.
Qed.

Lemma fold_start_origin items acc bt ds :
  pd_patterns (fold_left start_step items acc) !! bt = Some ds ->
  pd_patterns acc !! bt = Some ds
  \/ exists b, BlockItem b ∈ items /\ block_type b = bt /\ statements b = ds.
Proof.
  revert acc. induction items as [|it items IH]; intros acc H; [by left|].
  simpl in H. apply IH in H as [H|(b & Hb & Hbt & Hds)].
  - destruct it as [i|b]; simpl in H; [by left|].
    destruct (decide (block_type b = bt)) as [Heq|Hne].
    + rewrite Heq, lookup_insert_eq in H. inversion H; subst.
      right. exists b. split; [by left|done].
    + rewrite lookup_insert_ne in H by done. by left.
  - right. exists b. split; [by right|done].
Qed.

(** Every track [start] stores is the statement list of one block. *)
Lemma start_origin items bt ds :
  pd_patterns (start items) !! bt = Some ds ->
  exists b, BlockItem b ∈ items /\ block_type b = bt /\ statements b = ds.
Proof.
  intros H. apply fold_start_origin in H as [H|H]; [|done].
  simpl in H. by rewrite lookup_empty in H.
Qed.

Lemma fold_start_keeps items acc bt :
  is_Some (pd_patterns acc !! bt) ->
  is_Some (pd_patterns (fold_left start_step items acc) !! bt).
Proof.
  revert acc. induction items as [|it items IH]; intros acc H; [done|].
  simpl. apply IH. destruct it as [i|b]; simpl; [done|].
  rewrite lookup_insert. case_decide; [by eexists|done].
Qed.

(** A block gives its type a track. *)
Lemma start_has_track items b :
  BlockItem b ∈ items -> is_Some (pd_patterns (start items) !! block_type b).
Proof.
  intros Hb. apply list_elem_of_split in Hb as (i1 & i2 & ->).
  unfold start. rewrite fold_left_app. simpl. apply fold_start_keeps.
  simpl. rewrite lookup_insert_eq. by eexists.
Qed.

(** What [transform_child] makes of a block of the tree. *)
Lemma transform_block_inv c b :
  transform_child c = Some (BlockItem b) ->
  exists tb, c = Lark.PatternBlock tb /\ Lark.bl_type tb = block_type b
             /\ mapM statement (Lark.bl_statements tb) = Some (statements b).
Proof.
  destruct c as [ti|tb]; simpl; [done|].
  destruct (mapM statement (Lark.bl_statements tb)) as [sts|] eqn:E; [|done].
  simpl. intros H; inversion H; subst. by exists tb.
Qed.

Lemma transform_block tb it :
  transform_child (Lark.PatternBlock tb) = Some it ->
  exists sts, mapM statement (Lark.bl_statements tb) = Some sts
              /\ it = BlockItem (BlockDict (Lark.bl_type tb) sts).
Proof.
  simpl. destruct (mapM statement (Lark.bl_statements tb)) as [sts|]; [|done].
  simpl. intros H; inversion H; subst. by exists sts.
Qed.

End TransformerFacts.

Module ApiFacts.
Import PatternTransformer Api TransformerFacts.

Lemma compile_inv text doc :
  compile text = Some doc ->
  exists t items,
    Lark.parse text = Some (inl t)
    /\ mapM transform_child t = Some items
    /\ doc = validate_pattern (start items).
Proof.
  unfold compile, parse_pattern, try_parse, transform.
  destruct (Lark.parse text) as [[t|e]|] eqn:Et; simpl; try done.
  destruct (mapM transform_child t) as [items|] eqn:Ei; simpl; [|done].
  intros H; inversion H; subst. by exists t, items.
Qed.

(** A program that parses compiles: nothing after the parser rejects it. *)
Lemma parse_pattern_of_tree text t :
  Lark.parse text = Some (inl t) ->
  exists items,
    mapM transform_child t = Some items
    /\ parse_pattern text
       = Some {| success := true;
                 pattern := Some (validate_pattern (start items));
                 error := None |}.
Proof.
  intros Ht. destruct (LarkFacts.transform_total _ _ Ht) as [data Hdata].
  unfold transform in Hdata.
  destruct (mapM transform_child t) as [items|] eqn:E; [|done].
  simpl in Hdata. inversion Hdata; subst. exists items. split; [done|].
  unfold parse_pattern, try_parse, transform. rewrite Ht. simpl.
  by rewrite E.
Qed.

Lemma mapM_event (sts : list Lark.statement_tree) (ds : list statement_dict) :
  mapM statement sts = Some ds ->
  mapM event_of_statement sts = Some (validate_note <$> ds).
Proof.
  rewrite !mapM_Some. induction 1 as [|st d sts ds Hst _ IH]; [constructor|].
  simpl. constructor; [|done]. unfold event_of_statement. by rewrite Hst.
Qed.

Lemma validate_lookup data bt :
  patterns (validate_pattern data) !! bt
  = fmap validate_note <$> pd_patterns data !! bt.
Proof. unfold validate_pattern. simpl. apply lookup_fmap. Qed.

End ApiFacts.

(** * The compiler *)

Module Compiler.
Import Lark PatternTransformer Api Spec TransformerFacts ApiFacts.

(** C1, as stated, fails: the statements of [out_of_order] are stored as
    written, the event at beat 1 before the event at beat 0. *)
Lemma out_of_order_track_unsorted :
  track out_of_order "melody" = Some [event "piano" "C4" 1; event "piano" "E4" 0]
  /\ ~ time_sorted [event "piano" "C4" 1; event "piano" "E4" 0].
Proof.
  split; [by vm_compute|].
  simpl. intros [Hle _]. by apply Qle_bool_iff in Hle.
Qed.

(** C1, amended: every track of a compiled document is the statement
    sequence of one block of the source of that type, event by event in
    source order; no sort by time is applied. *)
Theorem track_keeps_source_order text t doc bt evs :
  parse text = Some (inl t) ->
  compile text = Some doc ->
  patterns doc !! bt = Some evs ->
  exists b,
    PatternBlock b ∈ t /\ bl_type b = bt
    /\ mapM event_of_statement (bl_statements b) = Some evs.
Proof.
  intros Ht Hdoc Hevs.
  apply compile_inv in Hdoc as (t' & items & Ht' & Hitems & ->).
  rewrite Ht in Ht'. inversion Ht'; subst t'. clear Ht'.
  rewrite validate_lookup in Hevs.
  destruct (pd_patterns (start items) !! bt) as [ds|] eqn:Hds; [|done].
  simpl in Hevs. inversion Hevs; subst evs. clear Hevs.
  apply start_origin in Hds as (b & Hb & Hbt & Hsts).
  apply mapM_Some in Hitems.
  apply list_elem_of_lookup in Hb as [i Hi].
  destruct (Forall2_lookup_r _ _ _ _ _ Hitems Hi) as (c & Hc & Hcb).
  apply transform_block_inv in Hcb as (tb & -> & Htype & Hsts').
  exists tb. split; [by eapply list_elem_of_lookup_2|].
  split; [congruence|]. rewrite <- Hsts. by apply mapM_event.
Qed.

(** On [out_of_order]: the track is the block as written, beat 1 first. *)
Lemma track_keeps_source_order_witness :
  exists b,
    PatternBlock b ∈ [PatternBlock (Block "melody"
                        [Statement "piano" "C4" "1"; Statement "piano" "E4" "0"])]
    /\ bl_type b = "melody"
    /\ mapM event_of_statement (bl_statements b)
       = Some [event "piano" "C4" 1; event "piano" "E4" 0].
Proof.
  eapply (track_keeps_source_order out_of_order);
    [by vm_compute | by vm_compute | by vm_compute].
Defined.

(** C2, as stated, fails: a program with two [melody] blocks compiles
    without an error, and the track is the second block. *)
Lemma two_melodies_compile :
  (r ← parse_pattern two_melodies; Some (success r, error r)) = Some (true, None)
  /\ track two_melodies "melody" = Some [event "piano" "E4" 1].
Proof. split; by vm_compute. Qed.

(** C2, amended: a program that parses compiles, whatever block types it
    repeats, and the track of a block type is the last block of that type:
    a later block replaces an earlier one, nothing is merged and no error is
    raised. *)
Theorem later_block_replaces_earlier text c1 b c2 :
  parse text = Some (inl (c1 ++ PatternBlock b :: c2)) ->
  (forall b', PatternBlock b' ∈ c2 -> bl_type b' <> bl_type b) ->
  exists doc,
    parse_pattern text
    = Some {| success := true; pattern := Some doc; error := None |}
    /\ patterns doc !! bl_type b = mapM event_of_statement (bl_statements b).
Proof.
  intros Ht Hlast.
  destruct (parse_pattern_of_tree _ _ Ht) as (items & Hitems & Hresp).
  eexists. split; [exact Hresp|].
  apply mapM_Some in Hitems.
  apply Forall2_app_inv_l in Hitems as (i1 & i2' & H1 & H2 & ->).
  apply Forall2_cons_inv_l in H2 as (it & i2 & Hit & H2 & ->).
  apply transform_block in Hit as (sts & Hsts & ->).
  rewrite validate_lookup.
  change (bl_type b) with (block_type (BlockDict (bl_type b) sts)) at 1.
  rewrite start_last_block.
  - simpl. symmetry. by apply mapM_event.
  - intros b' Hb'. simpl.
    apply list_elem_of_lookup in Hb' as [i Hi].
    destruct (Forall2_lookup_r _ _ _ _ _ H2 Hi) as (c & Hc & Hcb).
    apply transform_block_inv in Hcb as (tb & -> & Htype & _).
    rewrite <- Htype. apply Hlast. by eapply list_elem_of_lookup_2.
Qed.

(** On [two_melodies]: the second block is the track. *)
Lemma later_block_replaces_earlier_witness :
  exists doc,
    parse_pattern two_melodies
    = Some {| success := true; pattern := Some doc; error := None |}
    /\ patterns doc !! "melody"
       = mapM event_of_statement [Statement "piano" "E4" "1"].
Proof.
  apply (later_block_replaces_earlier two_melodies
           [PatternBlock (Block "melody" [Statement "piano" "C4" "0"])]
           (Block "melody" [Statement "piano" "E4" "1"]) []).
  - by vm_compute.
  - intros b' Hb'. by apply not_elem_of_nil in Hb'.
Defined.

(** C3, as stated, fails: the empty program is rejected. *)
Lemma empty_program_rejected :
  exists msg,
    parse_pattern ""
    = Some {| success := false; pattern := None; error := Some msg |}.
Proof. eexists. by vm_compute. Qed.

(** C3, amended: the grammar asks for at least one block, so a program
    without a block does not parse and every compiled document has a track;
    its [patterns] mapping is never empty. *)
Theorem compiled_document_has_a_track text doc :
  compile text = Some doc ->
  (exists t b, parse text = Some (inl t) /\ PatternBlock b ∈ t)
  /\ patterns doc <> ∅.
Proof.
  intros Hdoc.
  apply compile_inv in Hdoc as (t & items & Ht & Hitems & ->).
  destruct (LarkFacts.parse_shape _ _ Ht) as (ims & bs & -> & Hbs).
  destruct bs as [|b bs]; [done|].
  assert (PatternBlock b
          ∈ map Lark.ImportStatement ims ++ map PatternBlock (b :: bs))
    as Hb by (apply elem_of_app; right; by left).
  split; [by eauto|].
  apply mapM_Some in Hitems.
  apply list_elem_of_lookup in Hb as [i Hi].
  destruct (Forall2_lookup_l _ _ _ _ _ Hitems Hi) as (it & Hit & Hc).
  apply transform_block in Hc as (sts & _ & ->).
  apply list_elem_of_lookup_2, start_has_track in Hit as [ds Hds].
  intros Hempty.
  assert (patterns (validate_pattern (start items)) !! bl_type b = None) as Hn
    by (rewrite Hempty; apply lookup_empty).
  rewrite validate_lookup in Hn. simpl in Hds. by rewrite Hds in Hn.
Qed.

(** On [three_notes]: one block, one track. *)
Lemma compiled_document_has_a_track_witness :
  (exists t b, parse three_notes = Some (inl t) /\ PatternBlock b ∈ t)
  /\ patterns (validate_pattern (start [BlockItem (BlockDict "melody"
       [StatementDict "piano" "C4" 0; StatementDict "piano" "E4" (1 # 2);
        StatementDict "piano" "G4" 1])])) <> ∅.
Proof.
  apply (compiled_document_has_a_track three_notes). by vm_compute.
Defined.

(** C4: every event of a compiled document carries the schema defaults,
    velocity 1.0 and duration 0.5 beats; the melody of [three_notes] is three
    such events, at beats 0, 0.5 and 1.0. *)
Theorem events_carry_schema_defaults :
  (forall text doc (bt : string) (evs : list NoteEvent) e,
      compile text = Some doc -> patterns doc !! bt = Some evs -> e ∈ evs ->
      velocity e = 1%Q /\ duration e = (1 # 2)%Q)
  /\ track three_notes "melody"
     = Some [ {| instrument := "piano"; note := "C4"; time := 0;
                 velocity := 1; duration := 1 # 2 |};
              {| instrument := "piano"; note := "E4"; time := 1 # 2;
                 velocity := 1; duration := 1 # 2 |};
              {| instrument := "piano"; note := "G4"; time := 1;
                 velocity := 1; duration := 1 # 2 |} ].
Proof.
  split; [|by vm_compute].
  intros text doc bt evs e Hdoc Hevs He.
  apply compile_inv in Hdoc as (t & items & _ & _ & ->).
  rewrite validate_lookup in Hevs.
  destruct (pd_patterns (start items) !! bt) as [ds|]; [|done].
  simpl in Hevs. inversion Hevs; subst evs.
  apply list_elem_of_fmap in He as (d & -> & _). done.
Qed.

(** On the second event of [three_notes]. *)
Lemma events_carry_schema_defaults_witness :
  velocity (event "piano" "E4" (1 # 2)) = 1%Q
  /\ duration (event "piano" "E4" (1 # 2)) = (1 # 2)%Q.
Proof.
  eapply (proj1 events_carry_schema_defaults three_notes _ "melody");
    [by vm_compute | by vm_compute |].
  right. left.
Defined.


End Compiler.

(** * The audio engine *)

Module AudioEngineFacts.
Import Api AudioEngine.

(** Reading [instruments[name]] is falsy exactly for the names that are
    neither filled entries nor inherited. *)
Lemma get_falsy o name :
  truthy (get o name) = false <->
  (o !! name = Some None \/ (o !! name = None /\ name ∉ object_prototype)).
Proof.
  unfold get. destruct (o !! name) as [[sm|]|] eqn:E; simpl.
  - split; [done|]. by intros [|[]].
  - split; [by left|done].
  - case_bool_decide; simpl; split; try done.
    + by intros [|[]].
    + intros _. by right.
Qed.

(** The callback reports an instrument whose entry is falsy and returns. *)
Lemma callback_reports_missing s time note :
  truthy (get (instruments s) (instrument note)) = false ->
  callback s time note
  = {| effects := [ConsoleError ("Instrument " ++ instrument note ++ " not found")];
       thrown := None |}.
Proof. intros H. unfold callback. by rewrite H. Qed.

(** The callback hands the note to the sampler of a filled entry. *)
Lemma callback_triggers s time note sm :
  instruments s !! instrument note = Some (Some sm) ->
  exists d v,
    effects (callback s time note)
    = [TriggerAttackRelease sm (Api.note note) d (Some time) (Some v)].
Proof. intros H. unfold callback, get. rewrite H. simpl. eauto. Qed.

(** What [playPattern] leaves in [patternParts]. *)
Lemma playPattern_parts pattern s type :
  patternParts (playPattern pattern s) !! type
  = make_part <$> patterns pattern !! type.
Proof.
  unfold playPattern. simpl. rewrite (right_id_L ∅ (∪)). apply lookup_fmap.
Qed.

End AudioEngineFacts.

Module Scheduler.
Import Api AudioEngine TransportControls Spec AudioEngineFacts.

(** C5, as stated, fails: the melody of [three_notes] ends at beat 1.5, and
    its part loops at 16. *)
Lemma loop_end_ignores_events :
  (doc ← compile three_notes;
   part ← patternParts (playPattern doc (initAudio initial)) !! "melody";
   Some (Tone.part_loopEnd part, spec_loop_length doc))
  = Some (Tone.Num 16, (3 # 2)%Q).
Proof. by vm_compute. Qed.

(** C5, amended: from any state of the engine, [playPattern] gives every
    track of the document a part of its own, looping, with the constant 16
    as loop end whatever the events of the track, and holding the events
    of the track at their times; it makes no part for a name that is not a
    track, and it leaves the loop settings of the transport as they
    were. *)
Theorem part_loop_end_is_fixed pattern s :
  plain pattern ->
  (forall type notes,
      patterns pattern !! type = Some notes ->
      exists part,
        patternParts (playPattern pattern s) !! type = Some part
        /\ Tone.part_loop part = true
        /\ Tone.part_loopEnd part = Tone.Num 16
        /\ Tone.events part = map (fun n => (time n, n)) notes)
  /\ (forall type,
        patterns pattern !! type = None ->
        patternParts (playPattern pattern s) !! type = None)
  /\ Tone.loop (transport (playPattern pattern s)) = Tone.loop (transport s)
  /\ Tone.loopStart (transport (playPattern pattern s))
     = Tone.loopStart (transport s)
  /\ Tone.loopEnd (transport (playPattern pattern s))
     = Tone.loopEnd (transport s).
Proof.
  intros _. split; [|split; [|done]].
  - intros type notes H. exists (make_part notes).
    rewrite playPattern_parts, H. done.
  - intros type H. by rewrite playPattern_parts, H.
Qed.

(** On [late_note], whose event lies at beat 20: the part still loops at
    16. *)
Lemma part_loop_end_is_fixed_witness :
  exists part,
    patternParts (playPattern late_note initial) !! "melody" = Some part
    /\ Tone.part_loop part = true
    /\ Tone.part_loopEnd part = Tone.Num 16
    /\ Tone.events part = [(20%Q, event "piano" "C4" 20)].
Proof.
  assert (plain late_note) as H by (by vm_compute).
  destruct (part_loop_end_is_fixed late_note initial H) as [Htrack _].
  exact (Htrack "melody" [event "piano" "C4" 20] eq_refl).
Defined.

(** C6: the Pause control holds the clock where it is, and the Play
    control that follows starts the transport again from position 0, not
    from the held position, while the position the controls display is kept
    over both. *)
Theorem pause_then_play_restarts_at_zero pattern p shown tempo s :
  let playing :=
    handlePlay ({| parsedPattern := Some pattern; isPlaying := false;
                   currentTime := shown; bpm := tempo |}, s) in
  let held := handlePause (fst playing, clock_at p (snd playing)) in
  let resumed := handlePlay held in
  Tone.state (transport (snd playing)) = Tone.started
  /\ Tone.position (transport (snd playing)) = 0%Q
  /\ Tone.state (transport (snd held)) = Tone.paused
  /\ Tone.position (transport (snd held)) = p
  /\ currentTime (fst resumed) = currentTime (fst held)
  /\ Tone.state (transport (snd resumed)) = Tone.started
  /\ Tone.position (transport (snd resumed)) = 0%Q.
Proof. by cbv. Qed.

(** C7: for a name that [instruments] lacks but [Object.prototype] has, the
    callback of a part does not report and return: it throws, where
    [playNote] catches the same error and logs it. *)
Theorem callback_throws_on_inherited_name s time :
  instruments s !! "toString" = None ->
  callback s time (event "toString" "C4" 0)
  = {| effects := [];
       thrown := Some (TypeError "triggerAttackRelease is not a function") |}
  /\ snd (playNote "toString" "C4" s)
     = {| effects := [ConsoleError "Error playing note C4 on toString:"];
          thrown := None |}.
Proof.
  intros H. unfold callback, playNote, get, event. simpl. rewrite H.
  by vm_compute.
Qed.

(** On the engine [initAudio] leaves, with the event [inherited_name]
    compiles to. *)
Lemma callback_throws_on_inherited_name_witness :
  track inherited_name "melody" = Some [event "toString" "C4" 0]
  /\ callback (initAudio initial) 0 (event "toString" "C4" 0)
     = {| effects := [];
          thrown := Some (TypeError "triggerAttackRelease is not a function") |}
  /\ snd (playNote "toString" "C4" (initAudio initial))
     = {| effects := [ConsoleError "Error playing note C4 on toString:"];
          thrown := None |}.
Proof.
  split; [by vm_compute|].
  apply (callback_throws_on_inherited_name (initAudio initial) 0).
  by vm_compute.
Defined.

(** C9: [stopPattern] leaves the transport stopped at position 0, no parts
    and no current pattern, and a second call changes nothing. *)
Theorem stopPattern_idempotent s :
  Tone.state (transport (stopPattern s)) = Tone.stopped
  /\ Tone.position (transport (stopPattern s)) = 0%Q
  /\ patternParts (stopPattern s) = ∅
  /\ currentPattern (stopPattern s) = None
  /\ stopPattern (stopPattern s) = stopPattern s.
Proof. repeat split. Qed.

(** C10: [playNote] with an instrument name that has no sampler in the
    table returns without throwing, hands no note to any sampler (its one
    effect is a line on the console) and leaves the engine as it was. *)
Theorem playNote_unknown_instrument name note s :
  (forall sampler, instruments s !! name <> Some (Some sampler)) ->
  exists msg,
    playNote name note s
    = (s, {| effects := [ConsoleError msg]; thrown := None |}).
Proof.
  intros Hno. unfold playNote, get.
  destruct (instruments s !! name) as [[sampler|]|] eqn:E.
  - by destruct (Hno sampler).
  - simpl. eauto.
  - case_bool_decide; simpl; eauto.
Qed.

(** On the engine [initAudio] leaves, which has no banjo. *)
Lemma playNote_unknown_instrument_witness :
  exists msg,
    playNote "banjo" "C4" (initAudio initial)
    = (initAudio initial, {| effects := [ConsoleError msg]; thrown := None |}).
Proof.
  apply playNote_unknown_instrument. intros sampler. by vm_compute.
Defined.

End Scheduler.

(** * More on the parser: its alphabet and the shape of its trees *)

Module GrammarFacts.
Import Lexer Lark Grammar LarkFacts.

Ltac by_ascii c :=
  destruct c as [[] [] [] [] [] [] [] []]; vm_compute; intros; congruence.

Lemma ws_in_alphabet c : is_ws c = true -> in_alphabet c = true.
Proof. by_ascii c. Qed.

Lemma ident_char_in_alphabet c : is_ident_char c = true -> in_alphabet c = true.
Proof. by_ascii c. Qed.

Lemma ident_start_in_alphabet c : is_ident_start c = true -> in_alphabet c = true.
Proof. by_ascii c. Qed.

Lemma alpha_in_alphabet c : is_alpha c = true -> in_alphabet c = true.
Proof. by_ascii c. Qed.

Lemma digit_in_alphabet c : is_digit c = true -> in_alphabet c = true.
Proof. by_ascii c. Qed.

Lemma pitch_in_alphabet c : in_range "A" "G" c = true -> in_alphabet c = true.
Proof. by_ascii c. Qed.

Lemma forallb_weaken (p q : ascii -> bool) l :
  (forall c, p c = true -> q c = true) ->
  forallb p l = true -> forallb q l = true.
Proof.
  intros Hpq. induction l as [|c l IH]; simpl; [done|].
  intros H. apply andb_prop in H as [Hc Hl]. by rewrite (Hpq c Hc), IH.
Qed.

Lemma take_while_in_alphabet p s a r :
  (forall c, p c = true -> in_alphabet c = true) ->
  take_while p s = (a, r) -> forallb in_alphabet a = true.
Proof.
  intros Hp H. apply take_while_spec in H as [Ha _].
  by eapply forallb_weaken.
Qed.

Lemma INSTRUMENT_in_alphabet : token_in_alphabet INSTRUMENT.
Proof.
  intros [|c s] a r H; simpl in H; [done|].
  destruct (is_ident_start c) eqn:Hc; [|done].
  destruct (take_while is_ident_char s) as [a' r'] eqn:E.
  inversion H; subst. simpl.
  rewrite (ident_start_in_alphabet _ Hc). simpl.
  eapply take_while_in_alphabet; [apply ident_char_in_alphabet|exact E].
Qed.

Lemma pitched_in_alphabet : token_in_alphabet pitched.
Proof.
  intros [|c [|d r0]] a r H; simpl in H; try done.
  - by destruct (in_range "A" "G" c).
  - destruct (in_range "A" "G" c) eqn:Hc; [|done].
    apply pitch_in_alphabet in Hc.
    destruct (Ascii.eqb d "#" || Ascii.eqb d "b") eqn:Hd.
    + destruct r0 as [|e r0]; [done|].
      destruct (is_digit e) eqn:He; [|done]. inversion H; subst. simpl.
      rewrite Hc, (digit_in_alphabet _ He). simpl.
      apply orb_prop in Hd as [Hd|Hd]; apply Ascii.eqb_eq in Hd; by subst.
    + destruct (is_digit d) eqn:Hdd; [|done]. inversion H; subst. simpl.
      by rewrite Hc, (digit_in_alphabet _ Hdd).
Qed.

Lemma NOTE_in_alphabet : token_in_alphabet NOTE.
Proof.
  intros s a r H. unfold NOTE in H.
  destruct (pitched s) as [m|] eqn:E.
  - inversion H; subst. by eapply pitched_in_alphabet.
  - destruct (take_while is_alpha s) as [[|c a'] r'] eqn:E'; [done|].
    inversion H; subst.
    eapply take_while_in_alphabet; [apply alpha_in_alphabet|exact E'].
Qed.

Lemma TIMESTAMP_in_alphabet : token_in_alphabet TIMESTAMP.
Proof.
  intros s a r H. unfold TIMESTAMP in H.
  destruct (take_while is_digit s) as [[|d ip] r0] eqn:E; [done|].
  pose proof (take_while_in_alphabet _ _ _ _ digit_in_alphabet E) as Hip.
  destruct r0 as [|c r']; [by inversion H; subst|].
  destruct (Ascii.eqb c ".") eqn:Hc; [|by inversion H; subst].
  destruct (take_while is_digit r') as [[|f fp] r''] eqn:E';
    [by inversion H; subst|].
  pose proof (take_while_in_alphabet _ _ _ _ digit_in_alphabet E') as Hfp.
  inversion H; subst. apply Ascii.eqb_eq in Hc. subst c.
  change (forallb in_alphabet ((d :: ip) ++ "."%char :: f :: fp) = true).
  rewrite forallb_app, Hip.
  change (forallb in_alphabet (f :: fp) = true). exact Hfp.
Qed.

Lemma first_lit_In ls s a r :
  first_lit ls s = Some (a, r) ->
  exists l, l ∈ ls /\ a = list_ascii_of_string l.
Proof.
  induction ls as [|l ls IH]; simpl; [done|].
  destruct (lit (list_ascii_of_string l) s) as [r0|].
  - intros H; inversion H; subst. exists l. split; [by left|done].
  - intros H. destruct (IH H) as (l' & Hl' & ->). exists l'.
    split; [by right|done].
Qed.

Lemma BLOCK_TYPE_in_alphabet : token_in_alphabet BLOCK_TYPE.
Proof.
  intros s a r H. apply first_lit_In in H as (l & Hl & ->).
  unfold block_types in Hl. repeat (apply elem_of_cons in Hl as [->|Hl]);
    [by vm_compute..|]. by apply not_elem_of_nil in Hl.
Qed.

Lemma MODULE_NAME_in_alphabet : token_in_alphabet MODULE_NAME.
Proof.
  intros [|q s] a r H; simpl in H; [done|].
  destruct (Ascii.eqb q "034") eqn:Hq; [|done].
  destruct (INSTRUMENT s) as [[a0 [|q' r']]|] eqn:E; try done.
  destruct (Ascii.eqb q' "034") eqn:Hq'; [|done].
  apply INSTRUMENT_in_alphabet in E. inversion H; subst.
  apply Ascii.eqb_eq in Hq, Hq'. subst. simpl.
  by rewrite forallb_app, E.
Qed.

(** *** Parsers eat words of the alphabet *)

Lemma skip_ws_eats s :
  exists w, s = w ++ skip_ws s /\ forallb in_alphabet w = true.
Proof.
  unfold skip_ws. destruct (take_while is_ws s) as [w r] eqn:E.
  exists w. split; [by apply take_while_app in E|].
  eapply take_while_in_alphabet; [apply ws_in_alphabet|exact E].
Qed.

Lemma eats_ret {A} (x : A) : eats (ret x).
Proof. intros s y r H. inversion H; subst. by exists []. Qed.

Lemma eats_bind {A B} (p : parser A) (k : A -> parser B) :
  eats p -> (forall x, eats (k x)) -> eats (bind p k).
Proof.
  intros Hp Hk s y r H. apply bind_Ok in H as (x & r1 & H1 & H2).
  apply Hp in H1 as (c1 & -> & Hc1). apply Hk in H2 as (c2 & -> & Hc2).
  exists (c1 ++ c2). split; [by rewrite <- app_assoc|].
  by rewrite forallb_app, Hc1, Hc2.
Qed.

Lemma eats_tok T : prefix_terminal T -> token_in_alphabet T -> eats (tok T).
Proof.
  intros HT HA s x r. unfold tok.
  destruct (skip_ws_eats s) as (w & Hs & Hw).
  destruct (T (skip_ws s)) as [[a r0]|] eqn:E; [|done].
  intros H; inversion H; subst r0. clear H.
  pose proof (HA _ _ _ E) as Ha. apply HT in E as [_ E].
  exists (w ++ a). split; [by rewrite <- app_assoc, <- E|].
  by rewrite forallb_app, Hw, Ha.
Qed.

Lemma eats_sym l :
  forallb in_alphabet (list_ascii_of_string l) = true -> eats (sym l).
Proof.
  intros Hl s x r. unfold sym.
  destruct (skip_ws_eats s) as (w & Hs & Hw).
  destruct (lit _ (skip_ws s)) as [r0|] eqn:E; [|done].
  intros H; inversion H; subst r0. clear H. apply lit_app in E.
  exists (w ++ list_ascii_of_string l).
  split; [by rewrite <- app_assoc, <- E|]. by rewrite forallb_app, Hw, Hl.
Qed.

Lemma eats_statement : eats statement.
Proof.
  unfold statement.
  apply eats_bind; [apply eats_tok; [apply INSTRUMENT_prefix|apply INSTRUMENT_in_alphabet]|intros i].
  apply eats_bind; [apply eats_tok; [apply NOTE_prefix|apply NOTE_in_alphabet]|intros n].
  apply eats_bind; [apply eats_tok; [apply TIMESTAMP_prefix|apply TIMESTAMP_in_alphabet]|intros t].
  apply eats_bind; [by apply eats_sym|intros _]. apply eats_ret.
Qed.

Lemma eats_statements fuel : eats (statements fuel).
Proof.
  induction fuel as [|fuel IH]; intros s x r; [done|]. cbn [statements].
  destruct (skip_ws_eats s) as (w & Hs & Hw).
  destruct (lit _ (skip_ws s)) as [r0|] eqn:E.
  - intros H; inversion H; subst. apply lit_app in E.
    exists (w ++ list_ascii_of_string "}").
    split; [by rewrite <- app_assoc, <- E|]. by rewrite forallb_app, Hw.
  - clear w Hs Hw E. revert s x r.
    change (eats (bind statement (fun st =>
              bind (statements fuel) (fun sts => ret (st :: sts))))).
    apply eats_bind; [apply eats_statement|intros st].
    apply eats_bind; [apply IH|intros sts]. apply eats_ret.
Qed.

Lemma eats_pattern_block fuel : eats (pattern_block fuel).
Proof.
  unfold pattern_block.
  apply eats_bind; [apply eats_tok; [apply BLOCK_TYPE_prefix|apply BLOCK_TYPE_in_alphabet]|intros b].
  apply eats_bind; [by apply eats_sym|intros _].
  apply eats_bind; [apply eats_statements|intros sts]. apply eats_ret.
Qed.

(** The blocks reach the end of the input. *)
Lemma pattern_blocks_all fuel s bs r :
  pattern_blocks fuel s = Ok bs r ->
  r = [] /\ forallb in_alphabet s = true.
Proof.
  revert s bs r. induction fuel as [|fuel IH]; intros s bs r; [done|].
  cbn [pattern_blocks]. intros H.
  apply bind_Ok in H as (b & r1 & H1 & H).
  apply eats_pattern_block in H1 as (c & -> & Hc).
  destruct (skip_ws r1) as [|c1 r1'] eqn:E.
  - inversion H; subst. split; [done|].
    destruct (skip_ws_eats r1) as (w & Hr1 & Hw). rewrite E in Hr1.
    rewrite app_nil_r in Hr1. subst w. by rewrite forallb_app, Hc, Hw.
  - apply bind_Ok in H as (bs' & r2 & H2 & H). inversion H; subst.
    apply IH in H2 as [-> Hr1]. split; [done|].
    by rewrite forallb_app, Hc, Hr1.
Qed.

Lemma eats_import_statement : eats import_statement.
Proof.
  unfold import_statement.
  apply eats_bind; [by apply eats_sym|intros _].
  apply eats_bind; [apply eats_tok; [apply INSTRUMENT_prefix|apply INSTRUMENT_in_alphabet]|intros i].
  apply eats_bind; [by apply eats_sym|intros _].
  apply eats_bind; [apply eats_tok; [apply MODULE_NAME_prefix|apply MODULE_NAME_in_alphabet]|intros m].
  apply eats_bind; [by apply eats_sym|intros _]. apply eats_ret.
Qed.

Lemma eats_import_statements fuel : eats (import_statements fuel).
Proof.
  induction fuel as [|fuel IH]; intros s x r; [done|].
  cbn [import_statements]. destruct (lit _ (skip_ws s)) as [r0|] eqn:E.
  - clear r0 E. revert s x r.
    change (eats (bind import_statement (fun i =>
              bind (import_statements fuel) (fun ims => ret (i :: ims))))).
    apply eats_bind; [apply eats_import_statement|intros i].
    apply eats_bind; [apply IH|intros ims]. apply eats_ret.
  - intros H; inversion H; subst. by exists [].
Qed.

(** An accepted program is written in the alphabet. *)
Lemma parse_in_alphabet text t :
  parse text = Some (inl t) ->
  forallb in_alphabet (list_ascii_of_string text) = true.
Proof.
  unfold parse. destruct (start _ _) as [t' r|[|c r]|] eqn:E; try done.
  intros _. unfold start in E.
  apply bind_Ok in E as (ims & r1 & H1 & E).
  apply bind_Ok in E as (bs & r2 & H2 & E).
  apply eats_import_statements in H1 as (c & -> & Hc).
  apply pattern_blocks_all in H2 as [_ Hr1].
  by rewrite forallb_app, Hc, Hr1.
Qed.

(** *** The shape of the subtrees *)

Lemma string_of_list_ascii_app a b :
  string_of_list_ascii (a ++ b)
  = (string_of_list_ascii a ++ string_of_list_ascii b)%string.
Proof. induction a as [|c a IH]; simpl; [done|]. by rewrite IH. Qed.

Lemma tok_BLOCK_TYPE s x r : tok BLOCK_TYPE s = Ok x r -> x ∈ block_types.
Proof.
  unfold tok. destruct (BLOCK_TYPE _) as [[a r0]|] eqn:E; [|done].
  intros H; inversion H; subst. apply first_lit_In in E as (l & Hl & ->).
  by rewrite string_of_list_ascii_of_string.
Qed.

Lemma tok_MODULE_NAME s x r :
  tok MODULE_NAME s = Ok x r -> exists name, x = quoted name.
Proof.
  unfold tok. destruct (MODULE_NAME _) as [[a r0]|] eqn:E; [|done].
  intros H; inversion H; subst. clear H. unfold MODULE_NAME in E.
  destruct (skip_ws s) as [|q s0]; [done|].
  destruct (Ascii.eqb q "034") eqn:Hq; [|done].
  destruct (INSTRUMENT s0) as [[a0 [|q' r']]|]; try done.
  destruct (Ascii.eqb q' "034") eqn:Hq'; [|done].
  inversion E; subst. apply Ascii.eqb_eq in Hq, Hq'. subst.
  exists (string_of_list_ascii a0). simpl.
  by rewrite string_of_list_ascii_app.
Qed.

Lemma statements_parsed fuel s sts r :
  statements fuel s = Ok sts r -> Forall parsed_statement sts.
Proof.
  revert s sts r. induction fuel as [|fuel IH]; intros s sts r; [done|].
  cbn [statements]. destruct (lit _ (skip_ws s)).
  - intros H; inversion H; subst. constructor.
  - intros H. apply bind_Ok in H as (st & r1 & H1 & H).
    apply bind_Ok in H as (sts' & r2 & H2 & H). inversion H; subst.
    constructor; [by exists s, r1|by eapply IH].
Qed.

Lemma pattern_block_parsed fuel s b r :
  pattern_block fuel s = Ok b r -> parsed_block b.
Proof.
  unfold pattern_block. intros H.
  apply bind_Ok in H as (bt & r1 & H1 & H).
  apply bind_Ok in H as (u & r2 & H2 & H).
  apply bind_Ok in H as (sts & r3 & H3 & H). inversion H; subst.
  split; simpl; [by eapply tok_BLOCK_TYPE|by eapply statements_parsed].
Qed.

Lemma pattern_blocks_parsed fuel s bs r :
  pattern_blocks fuel s = Ok bs r -> Forall parsed_block bs.
Proof.
  revert s bs r. induction fuel as [|fuel IH]; intros s bs r; [done|].
  cbn [pattern_blocks]. intros H.
  apply bind_Ok in H as (b & r1 & H1 & H). apply pattern_block_parsed in H1.
  destruct (skip_ws r1).
  - inversion H; subst. constructor; [done|constructor].
  - apply bind_Ok in H as (bs' & r2 & H2 & H). inversion H; subst.
    constructor; [done|by eapply IH].
Qed.

Lemma import_statements_parsed fuel s ims r :
  import_statements fuel s = Ok ims r -> Forall parsed_import ims.
Proof.
  revert s ims r. induction fuel as [|fuel IH]; intros s ims r; [done|].
  cbn [import_statements]. destruct (lit _ (skip_ws s)).
  - intros H. apply bind_Ok in H as (i & r1 & H1 & H).
    apply bind_Ok in H as (ims' & r2 & H2 & H). inversion H; subst.
    constructor; [by exists s, r1|by eapply IH].
  - intros H; inversion H; subst. constructor.
Qed.

Lemma omap_map {A B C} (g : A -> B) (f : B -> option C) (l : list A) :
  omap f (map g l) = omap (fun x => f (g x)) l.
Proof.
  induction l as [|x l IH]; [done|]. simpl.
  destruct (f (g x)); [f_equal|]; exact IH.
Qed.

Lemma omap_None {A B} (l : list A) : omap (fun _ => @None B) l = [].
Proof. by induction l. Qed.

Lemma omap_Some {A} (l : list A) : omap Some l = l.
Proof. induction l as [|x l IH]; [done|]. simpl. f_equal. exact IH. Qed.

Lemma imports_of_tree ims bs :
  imports_of (map ImportStatement ims ++ map PatternBlock bs) = ims.
Proof.
  unfold imports_of. rewrite omap_app, !omap_map, omap_None, app_nil_r.
  apply omap_Some.
Qed.

Lemma blocks_of_tree ims bs :
  blocks_of (map ImportStatement ims ++ map PatternBlock bs) = bs.
Proof.
  unfold blocks_of. rewrite omap_app, !omap_map, omap_None. apply omap_Some.
Qed.

(** A tree is its imports, as parsed, followed by its blocks, as parsed. *)
Lemma parse_tree text t :
  parse text = Some (inl t) ->
  t = map ImportStatement (imports_of t) ++ map PatternBlock (blocks_of t)
  /\ Forall parsed_import (imports_of t)
  /\ Forall parsed_block (blocks_of t).
Proof.
  unfold parse. destruct (start _ _) as [t' r|[|c r]|] eqn:E; try done.
  intros H; inversion H; subst. clear H. unfold start in E.
  apply bind_Ok in E as (ims & r1 & H1 & E).
  apply bind_Ok in E as (bs & r2 & H2 & E). inversion E; subst.
  rewrite imports_of_tree, blocks_of_tree. split; [done|].
  split; [by eapply import_statements_parsed|by eapply pattern_blocks_parsed].
Qed.

Lemma parsed_block_In text t b :
  parse text = Some (inl t) -> PatternBlock b ∈ t -> parsed_block b.
Proof.
  intros Ht Hb. destruct (parse_tree _ _ Ht) as (Hshape & _ & Hbs).
  rewrite Hshape in Hb. apply elem_of_app in Hb as [Hb|Hb].
  - apply list_elem_of_In, in_map_iff in Hb as (i & Hi & _). done.
  - apply list_elem_of_In, in_map_iff in Hb as (b' & Hb' & Hin).
    inversion Hb'; subst. rewrite Forall_forall in Hbs.
    by apply Hbs, list_elem_of_In.
Qed.

Lemma parsed_statement_decimal st :
  parsed_statement st -> PatternTransformer.decimal (st_timestamp st).
Proof. intros (s & r & H). by eapply statement_decimal. Qed.

Lemma parsed_import_quoted i :
  parsed_import i -> exists name, im_module i = quoted name.
Proof.
  intros (s & r & H). unfold import_statement in H.
  apply bind_Ok in H as (u1 & r1 & _ & H).
  apply bind_Ok in H as (ins & r2 & _ & H).
  apply bind_Ok in H as (u2 & r3 & _ & H).
  apply bind_Ok in H as (m & r4 & Hm & H).
  apply bind_Ok in H as (u3 & r5 & _ & H). inversion H; subst. simpl.
  by eapply tok_MODULE_NAME.
Qed.

End GrammarFacts.

(** * More on the compiler *)

Module CompilerFacts.
Import Lexer Lark Grammar PatternTransformer Api.
Import LarkFacts TransformerFacts ApiFacts GrammarFacts.

(** Where a track of a compiled document comes from. *)
Lemma track_origin text doc (bt : string) (evs : list NoteEvent) :
  compile text = Some doc ->
  patterns doc !! bt = Some evs ->
  exists t b,
    parse text = Some (inl t) /\ PatternBlock b ∈ t /\ bl_type b = bt
    /\ mapM event_of_statement (bl_statements b) = Some evs.
Proof.
  intros Hdoc Hevs.
  apply compile_inv in Hdoc as (t & items & Ht & Hitems & ->).
  rewrite validate_lookup in Hevs.
  destruct (pd_patterns (PatternTransformer.start items) !! bt) as [ds|] eqn:Hds;
    [|done].
  simpl in Hevs. inversion Hevs; subst evs. clear Hevs.
  apply start_origin in Hds as (b & Hb & Hbt & Hsts).
  apply mapM_Some in Hitems.
  apply list_elem_of_lookup in Hb as [i Hi].
  destruct (Forall2_lookup_r _ _ _ _ _ Hitems Hi) as (c & Hc & Hcb).
  apply transform_block_inv in Hcb as (tb & -> & Htype & Hsts').
  exists t, tb. split; [done|]. split; [by eapply list_elem_of_lookup_2|].
  split; [congruence|]. rewrite <- Hsts. by apply mapM_event.
Qed.

Lemma float_nonneg x q : float x = Some q -> (0 <= q)%Q.
Proof.
  assert (Hred : forall n p, (0 <= Qred (Z.of_N n # p))%Q).
  { intros n p. rewrite Qred_correct. unfold Qle. simpl. lia. }
  unfold float.
  destruct (take_while is_digit _) as [[|d ip] [|c r]]; try done.
  - intros H; inversion H; subst. apply Hred.
  - destruct (Ascii.eqb c "."); [|done].
    destruct (take_while is_digit r) as [[|f fp] [|c' r']]; try done.
    intros H; inversion H; subst. apply Hred.
Qed.

Lemma parse_pattern_cases text :
  (exists t doc,
      parse text = Some (inl t)
      /\ parse_pattern text
         = Some {| success := true; pattern := Some doc; error := None |})
  \/ (exists e,
         parse text = Some (inr e)
         /\ parse_pattern text
            = Some {| success := false; pattern := None;
                      error := Some (str (LarkError e)) |}).
Proof.
  destruct (parse_total text) as [[t|e] Hres].
  - left. destruct (parse_pattern_of_tree _ _ Hres) as (items & _ & Hresp).
    by eauto.
  - right. exists e. split; [done|].
    unfold parse_pattern, try_parse. by rewrite Hres.
Qed.


(** A program that holds a character outside the alphabet of the grammar,
    such as the minus sign of a negative time, is rejected by the parser. *)
Theorem foreign_character_rejected text c :
  c ∈ list_ascii_of_string text ->
  in_alphabet c = false ->
  exists e,
    parse_pattern text
    = Some {| success := false; pattern := None;
              error := Some (str (LarkError e)) |}.
Proof.
  intros Hc Hout.
  destruct (parse_pattern_cases text)
    as [(t & _ & Ht & _)|(e & _ & He)]; [|by eauto].
  apply parse_in_alphabet in Ht.
  rewrite forallb_forall in Ht. apply list_elem_of_In, Ht in Hc. congruence.
Qed.

(** On [melody { piano C4 -1; }]. *)
Lemma foreign_character_rejected_witness :
  exists e,
    parse_pattern "melody { piano C4 -1; }"
    = Some {| success := false; pattern := None;
              error := Some (str (LarkError e)) |}.
Proof.
  apply (foreign_character_rejected "melody { piano C4 -1; }" "-").
  - apply (bool_decide_unpack _). by vm_compute.
  - by vm_compute.
Defined.

(** The tracks of a compiled document are named by block keywords, so
    there are at most four of them. *)
Theorem tracks_named_by_block_keywords text doc :
  compile text = Some doc ->
  (forall bt, is_Some (patterns doc !! bt) -> bt ∈ block_types)
  /\ size (patterns doc) <= 4.
Proof.
  intros Hdoc.
  assert (forall bt, is_Some (patterns doc !! bt) -> bt ∈ block_types) as Hbt.
  { intros bt [evs Hevs].
    destruct (track_origin _ _ _ _ Hdoc Hevs) as (t & b & Ht & Hb & <- & _).
    by destruct (parsed_block_In _ _ _ Ht Hb). }
  split; [done|].
  rewrite <- size_dom.
  transitivity (size (list_to_set (C := gset string) block_types)).
  - apply subseteq_size. intros bt Hin. apply elem_of_dom in Hin.
    apply elem_of_list_to_set. by apply Hbt.
  - by vm_compute.
Qed.

(** On [DEFAULT_PATTERN]. *)
Lemma tracks_named_by_block_keywords_witness :
  (forall bt,
      is_Some ((default ∅ (patterns <$> compile PatternEditor.DEFAULT_PATTERN)) !! bt) ->
      bt ∈ block_types)
  /\ size (default ∅ (patterns <$> compile PatternEditor.DEFAULT_PATTERN)) <= 4.
Proof.
  destruct (compile PatternEditor.DEFAULT_PATTERN) as [doc|] eqn:E;
    [|by vm_compute in E].
  exact (tracks_named_by_block_keywords _ doc E).
Defined.

(** No event of a compiled document has a negative time. *)
Theorem event_times_not_negative text doc (bt : string) (evs : list NoteEvent) e :
  compile text = Some doc ->
  patterns doc !! bt = Some evs ->
  e ∈ evs ->
  (0 <= time e)%Q.
Proof.
  intros Hdoc Hevs He.
  destruct (track_origin _ _ _ _ Hdoc Hevs) as (t & b & _ & _ & _ & Hmap).
  apply mapM_Some in Hmap.
  apply list_elem_of_lookup in He as [i Hi].
  destruct (Forall2_lookup_r _ _ _ _ _ Hmap Hi) as (st & _ & Hst).
  unfold event_of_statement, statement in Hst.
  destruct (float (st_timestamp st)) as [q|] eqn:Hq; [|done].
  simpl in Hst. inversion Hst; subst. simpl. by eapply float_nonneg.
Qed.

(** On the second event of [Spec.three_notes]. *)
Lemma event_times_not_negative_witness :
  (0 <= time (Spec.event "piano" "E4" (1 # 2)))%Q.
Proof.
  eapply (event_times_not_negative Spec.three_notes _ "melody");
    [by vm_compute | by vm_compute |].
  right. left.
Defined.

(** *** Imports *)

Lemma fold_start_imports items acc :
  pd_imports (fold_left start_step items acc)
  = pd_imports acc ++ import_dicts items.
Proof.
  revert acc. induction items as [|it items IH]; intros acc; simpl.
  - by rewrite app_nil_r.
  - rewrite IH. destruct it as [i|b]; simpl; [|done].
    by rewrite <- app_assoc.
Qed.

Lemma fold_start_patterns items acc :
  pd_patterns (fold_left start_step items acc)
  = patterns_of_blocks (block_dicts items) (pd_patterns acc).
Proof.
  revert acc. induction items as [|it items IH]; intros acc; [done|].
  simpl. rewrite IH. by destruct it as [i|b].
Qed.

(** What the transformer makes of the imports and of the blocks of a
    tree. *)
Lemma transform_children (t : tree) (items : list item) :
  Forall2 (fun c it => transform_child c = Some it) t items ->
  import_dicts items = import_statement <$> imports_of t
  /\ mapM block_dict_of (blocks_of t) = Some (block_dicts items).
Proof.
  induction 1 as [|c it t items Hc _ [IHi IHb]]; [done|].
  destruct c as [i|b]; simpl in Hc.
  - inversion Hc; subst. split; [|exact IHb].
    change (import_statement i :: import_dicts items
            = import_statement i :: (import_statement <$> imports_of t)).
    by f_equal.
  - apply transform_block in Hc as (sts & Hsts & ->).
    split; [exact IHi|].
    assert (block_dict_of b = Some (BlockDict (bl_type b) sts)) as Hb
      by (unfold block_dict_of; by rewrite Hsts).
    apply mapM_Some.
    change (Forall2 (fun x y => block_dict_of x = Some y)
              (b :: blocks_of t) (BlockDict (bl_type b) sts :: block_dicts items)).
    constructor; [exact Hb|by apply mapM_Some].
Qed.

(** The imports of a compiled document are the import statements of the
    program in source order, and every module name keeps the double quotes
    it is written in. *)
Theorem imports_in_source_order_quoted text t :
  parse text = Some (inl t) ->
  exists doc,
    compile text = Some doc
    /\ imports doc
       = (fun i => {| is_instrument := im_instrument i;
                      is_module := im_module i |}) <$> imports_of t
    /\ Forall (fun i => exists name, is_module i = quoted name) (imports doc).
Proof.
  intros Ht. destruct (parse_pattern_of_tree _ _ Ht) as (items & Hitems & Hresp).
  exists (validate_pattern (PatternTransformer.start items)).
  split; [unfold compile; by rewrite Hresp|].
  apply mapM_Some, transform_children in Hitems as [Hims _].
  assert (imports (validate_pattern (PatternTransformer.start items))
          = (fun i => {| is_instrument := im_instrument i;
                         is_module := im_module i |}) <$> imports_of t) as Heq.
  { simpl. unfold PatternTransformer.start. rewrite fold_start_imports. simpl.
    rewrite Hims, <- list_fmap_compose. done. }
  split; [done|]. rewrite Heq.
  destruct (parse_tree _ _ Ht) as (_ & Hparsed & _).
  apply Forall_fmap. eapply Forall_impl; [exact Hparsed|].
  intros i Hi. simpl. by apply parsed_import_quoted.
Qed.

(** On [DEFAULT_PATTERN]. *)
Lemma imports_in_source_order_quoted_witness :
  exists doc,
    compile PatternEditor.DEFAULT_PATTERN = Some doc
    /\ imports doc
       = (fun i => {| is_instrument := im_instrument i;
                      is_module := im_module i |})
         <$> imports_of PatternEditor.default_tree
    /\ Forall (fun i => exists name, is_module i = quoted name) (imports doc).
Proof.
  apply (imports_in_source_order_quoted PatternEditor.DEFAULT_PATTERN).
  by vm_compute.
Defined.

(** The tracks depend on the blocks of the program alone: two programs
    with the same blocks compile to the same tracks whatever they import,
    and a statement may name an instrument that no import declares. *)
Theorem tracks_ignore_imports text1 text2 t1 t2 doc1 doc2 :
  parse text1 = Some (inl t1) ->
  parse text2 = Some (inl t2) ->
  blocks_of t1 = blocks_of t2 ->
  compile text1 = Some doc1 ->
  compile text2 = Some doc2 ->
  patterns doc1 = patterns doc2.
Proof.
  intros Ht1 Ht2 Hblocks Hdoc1 Hdoc2.
  apply compile_inv in Hdoc1 as (t1' & items1 & Ht1' & Hitems1 & ->).
  apply compile_inv in Hdoc2 as (t2' & items2 & Ht2' & Hitems2 & ->).
  rewrite Ht1 in Ht1'. rewrite Ht2 in Ht2'.
  inversion Ht1'; inversion Ht2'; subst t1' t2'.
  apply mapM_Some, transform_children in Hitems1 as [_ H1].
  apply mapM_Some, transform_children in Hitems2 as [_ H2].
  rewrite Hblocks, H2 in H1. inversion H1 as [Heq].
  simpl. unfold PatternTransformer.start.
  by rewrite !fold_start_patterns, Heq.
Qed.

(** On [DEFAULT_PATTERN] and its blocks without the imports. *)
Lemma tracks_ignore_imports_witness :
  patterns (default (Build_Pattern [] ∅) (compile PatternEditor.DEFAULT_PATTERN))
  = patterns (default (Build_Pattern [] ∅) (compile PatternEditor.default_blocks)).
Proof.
  destruct (compile PatternEditor.DEFAULT_PATTERN) as [doc1|] eqn:E1;
    [|by vm_compute in E1].
  destruct (compile PatternEditor.default_blocks) as [doc2|] eqn:E2;
    [|by vm_compute in E2].
  refine (tracks_ignore_imports _ _ PatternEditor.default_tree
            (map PatternBlock (blocks_of PatternEditor.default_tree))
            doc1 doc2 _ _ _ E1 E2);
    by vm_compute.
Defined.

End CompilerFacts.

(** * More on the audio engine *)

Module EngineFacts.
Import Api AudioEngine EngineOps.

Lemma playNote_engine i n s : fst (playNote i n s) = s.
Proof.
  unfold playNote. destruct (negb _); [done|].
  by destruct (thrown _).
Qed.

Lemma updateEq_engine e s : exists m, fst (updateEq e s) = with_eq m s.
Proof.
  unfold updateEq.
  destruct (set_band "low" _ _) as [m1|]; [|by exists (eq s); destruct s].
  destruct (set_band "mid" _ _) as [m2|]; [|by exists m1].
  destruct (set_band "high" _ _) as [m3|]; [by exists m3|by exists m2].
Qed.

Lemma step_consistent s c : consistent s -> consistent (step s c).
Proof.
  intros (Hparts & [H1 H2] & Hpos).
  destruct c as [|i n|e|p| | |b| |q]; simpl.
  - done.
  - by rewrite playNote_engine.
  - destruct (updateEq_engine e s) as [m ->]. done.
  - split; [apply (right_id_L ∅ (∪))|]. split; [|done].
    split; [done|by eexists].
  - split; [done|]. split; [|done]. split; [by intros []|done].
  - unfold consistent, pausePattern, Tone.pause. simpl. split; [done|].
    destruct (Tone.state (transport s)) eqn:E.
    + split; [|done]. split; [done|]. intros _. by apply H2.
    + split; [|done]. by split.
    + split; [|done]. split; [done|]. intros _. by apply H2.
  - unfold consistent, setBpm. simpl. by destruct (Qle_bool 0 b).
  - split; [done|]. split; [|done]. split; [by intros []|done].
  - unfold consistent, clock_at, Tone.run_to. simpl. split; [done|].
    destruct (Tone.state (transport s)) eqn:E; simpl; rewrite ?E.
    + split; [|done]. split; [done|]. intros _. by apply H2.
    + split; [|done]. by split.
    + split; [|done]. split; [done|]. intros _. by apply H2.
Qed.

Lemma run_consistent cs s : consistent s -> consistent (fold_left step cs s).
Proof.
  revert s. induction cs as [|c cs IH]; intros s Hs; [done|].
  simpl. by apply IH, step_consistent.
Qed.

Lemma initial_consistent : consistent initial.
Proof. split; [done|]. split; [|done]. split; [by intros []|done]. Qed.

(** In every state reached by a session that plays no pattern with a
    track named [__proto__], the scheduled parts are exactly the parts of
    the current pattern, one looping part per track, and there are none
    when no pattern is current. *)
Theorem parts_follow_current_pattern cs :
  Forall plain_command cs ->
  patternParts (run cs) = parts_of (currentPattern (run cs)).
Proof. intros _. apply (run_consistent cs initial initial_consistent). Qed.

(** A session that plays two patterns, pauses and goes on. *)
Lemma parts_follow_current_pattern_witness :
  patternParts
    (run [InitAudio; PlayPattern Spec.late_note; Elapse 3; PausePattern;
          PlayPattern Spec.late_note; SetBpm 90])
  = parts_of
      (currentPattern
        (run [InitAudio; PlayPattern Spec.late_note; Elapse 3; PausePattern;
              PlayPattern Spec.late_note; SetBpm 90])).
Proof.
  apply parts_follow_current_pattern.
  repeat (constructor; [by vm_compute|]). constructor.
Defined.

(** In every state a session reaches, a pattern is current exactly while
    the transport is started or paused, and a stopped transport stands at
    position 0 with no parts. *)
Theorem pattern_current_iff_not_stopped cs :
  (is_Some (currentPattern (run cs))
   <-> Tone.state (transport (run cs)) <> Tone.stopped)
  /\ (Tone.state (transport (run cs)) = Tone.stopped ->
      Tone.position (transport (run cs)) = 0%Q /\ patternParts (run cs) = ∅).
Proof.
  unfold run.
  destruct (run_consistent cs initial initial_consistent) as (Hparts & Hcur & Hpos).
  split; [done|]. intros Hstop. split; [by apply Hpos|].
  rewrite Hparts.
  destruct (currentPattern (fold_left step cs initial)) as [p|] eqn:E; [|done].
  destruct (proj1 Hcur); [by eexists|done].
Qed.

(** Only [setBpm] and [initAudio] set the tempo: from any state of the
    engine, playing notes and patterns, pausing, stopping, changing the
    equaliser, cleaning up and the passing of time leave it as it was. *)
Theorem tempo_kept_by_other_commands cs s :
  forallb keeps_tempo cs = true ->
  Tone.bpm (transport (fold_left step cs s)) = Tone.bpm (transport s).
Proof.
  revert s. induction cs as [|c cs IH]; intros s Hcs; [done|].
  simpl in Hcs. apply andb_prop in Hcs as [Hc Hcs].
  simpl. rewrite (IH _ Hcs).
  destruct c as [|i n|e|p| | |b| |q]; simpl; try done.
  - by rewrite playNote_engine.
  - by destruct (updateEq_engine e s) as [m ->].
  - unfold Tone.run_to. by destruct (Tone.state (transport s)).
Qed.

(** At 90 BPM: a pattern is played, paused, stopped and the engine cleaned
    up. *)
Lemma tempo_kept_by_other_commands_witness :
  Tone.bpm (transport (fold_left step
      [PlayPattern Spec.late_note; Elapse 3; PausePattern; StopPattern;
       CleanupAudio]
      (setBpm 90 (initAudio initial))))
  = Tone.bpm (transport (setBpm 90 (initAudio initial))).
Proof. apply tempo_kept_by_other_commands. by vm_compute. Defined.

(** *** The instrument table *)

Lemma empty_table_catalogued (s : engine) :
  instruments s = {[ "piano" := None; "synth" := None; "guitar" := None ]} ->
  catalogued s.
Proof.
  intros Hs name. rewrite Hs.
  destruct (decide (name = "piano")) as [->|Hp]; [by vm_compute; left|].
  destruct (decide (name = "synth")) as [->|Hs']; [by vm_compute; right; left|].
  destruct (decide (name = "guitar")) as [->|Hg];
    [by vm_compute; right; right; left|].
  rewrite !lookup_insert_ne, lookup_singleton_ne by done.
  unfold names. rewrite !not_elem_of_cons. repeat split; try done.
  apply not_elem_of_nil.
Qed.

Lemma step_catalogued s c : catalogued s -> catalogued (step s c).
Proof.
  intros H. destruct c as [|i n|e|p| | |b| |q]; simpl; try done.
  - intros name. simpl.
    destruct (decide (name = "piano")) as [->|Hp].
    { rewrite lookup_insert_eq. unfold catalog. by left. }
    rewrite lookup_insert_ne by done. apply H.
  - by rewrite playNote_engine.
  - by destruct (updateEq_engine e s) as [m ->].
  - by apply empty_table_catalogued.
Qed.

Lemma run_catalogued cs : catalogued (run cs).
Proof.
  unfold run. assert (catalogued initial) as H0
    by (by apply empty_table_catalogued).
  revert H0. generalize initial.
  induction cs as [|c cs IH]; intros s Hs; [done|].
  simpl. by apply IH, step_catalogued.
Qed.

(** In any session, [playNote] hands a note to a sampler only for the
    names piano, synth and guitar, and then hands the note it was given to
    the sampler [initAudio] made for that name. *)
Theorem playNote_sounds_only_the_catalog cs name note sampler n d t v :
  TriggerAttackRelease sampler n d t v
    ∈ effects (snd (playNote name note (run cs))) ->
  (name, sampler) ∈ catalog /\ n = note /\ d = Tone.Notated "8n".
Proof.
  pose proof (run_catalogued cs name) as Hcat. revert Hcat.
  unfold playNote, get.
  destruct (instruments (run cs) !! name) as [[sm|]|]; simpl.
  - intros Hcat Hin. apply list_elem_of_singleton in Hin.
    inversion Hin; subst. done.
  - intros _ Hin. apply list_elem_of_singleton in Hin. done.
  - intros _. case_bool_decide; simpl; intros Hin;
      apply list_elem_of_singleton in Hin; done.
Qed.

(** After [initAudio], the piano. *)
Lemma playNote_sounds_only_the_catalog_witness :
  ("piano", piano) ∈ catalog /\ "C4" = "C4"
  /\ Tone.Notated "8n" = Tone.Notated "8n".
Proof.
  apply (playNote_sounds_only_the_catalog [InitAudio] "piano" "C4" piano
           "C4" (Tone.Notated "8n") None None).
  vm_compute. left.
Defined.

(** Without a sampler under the name nothing sounds. *)
Lemma silent_without_sampler s name :
  (forall sampler, instruments s !! name <> Some (Some sampler)) ->
  (forall note, sounded (snd (playNote name note s)) = [])
  /\ (forall time ev, instrument ev = name -> sounded (callback s time ev) = []).
Proof.
  intros Hno. split.
  - intros note. unfold playNote, get.
    destruct (instruments s !! name) as [[sm|]|]; [by destruct (Hno sm)|done|].
    by case_bool_decide.
  - intros time ev <-. unfold callback, get.
    destruct (instruments s !! instrument ev) as [[sm|]|];
      [by destruct (Hno sm)|done|].
    by case_bool_decide.
Qed.

(** After [cleanupAudio] nothing sounds: neither [playNote] nor the
    callback of a part hands a note to a sampler, whatever the name. *)
Theorem cleanupAudio_silences s name note time ev :
  sounded (snd (playNote name note (fst (cleanupAudio s)))) = []
  /\ sounded (callback (fst (cleanupAudio s)) time ev) = [].
Proof.
  assert (forall nm sampler,
             instruments (fst (cleanupAudio s)) !! nm <> Some (Some sampler))
    as Hno.
  { intros nm sampler Hnm.
    pose proof (empty_table_catalogued (fst (cleanupAudio s)) eq_refl nm) as H.
    rewrite Hnm in H. simpl in Hnm.
    destruct (decide (nm = "piano")) as [->|Hp]; [by vm_compute in Hnm|].
    destruct (decide (nm = "synth")) as [->|Hs']; [by vm_compute in Hnm|].
    destruct (decide (nm = "guitar")) as [->|Hg]; [by vm_compute in Hnm|].
    by rewrite !lookup_insert_ne, lookup_singleton_ne in Hnm. }
  split.
  - by apply (silent_without_sampler _ name (Hno name)).
  - by apply (silent_without_sampler _ (instrument ev) (Hno (instrument ev))).
Qed.

(** *** The equaliser *)

Lemma updateEq_absent e s :
  (forall b, eq s !! "low" <> Some (Some b)) -> updateEq e s = (s, eq_error).
Proof.
  intros Hno. unfold updateEq, set_band.
  destruct (eq s !! "low") as [[b|]|]; [by destruct (Hno b)|done..].
Qed.

Lemma updateEq_present e s bl bm bh :
  eq s !! "low" = Some (Some bl) ->
  eq s !! "mid" = Some (Some bm) ->
  eq s !! "high" = Some (Some bh) ->
  updateEq e s
  = (with_eq (<["high" := Some (high_value (set_high e) bh)]>
               (<["mid" := Some (mid_value (set_mid e) bm)]>
                 (<["low" := Some (low_value (set_low e) bl)]> (eq s)))) s,
     quiet).
Proof.
  intros Hl Hm Hh. unfold updateEq.
  unfold set_band at 1. rewrite Hl.
  unfold set_band at 1. rewrite lookup_insert_ne, Hm by done.
  unfold set_band at 1. by rewrite !lookup_insert_ne, Hh by done.
Qed.

Lemma step_bands_uniform s c : bands_uniform s -> bands_uniform (step s c).
Proof.
  intros H. destruct c as [|i n|e|p| | |b| |q]; simpl; try done.
  - right. intros k Hk. unfold bands in Hk. simpl.
    repeat (apply elem_of_cons in Hk as [->|Hk]);
      [| |by rewrite lookup_insert_eq; eexists|by apply not_elem_of_nil in Hk].
    + rewrite !lookup_insert_ne, lookup_insert_eq by done. by eexists.
    + rewrite lookup_insert_ne, lookup_insert_eq by done. by eexists.
  - by rewrite playNote_engine.
  - destruct H as [Hnone|Hall].
    + rewrite updateEq_absent; [by left|].
      intros b. rewrite (Hnone "low"); [done|by left].
    + destruct (Hall "low") as [bl Hl]; [by left|].
      destruct (Hall "mid") as [bm Hm]; [by right; left|].
      destruct (Hall "high") as [bh Hh]; [by do 2 right; left|].
      rewrite (updateEq_present _ _ _ _ _ Hl Hm Hh). right. intros k Hk.
      unfold bands in Hk. simpl.
      repeat (apply elem_of_cons in Hk as [->|Hk]);
        [| |by rewrite lookup_insert_eq; eexists|by apply not_elem_of_nil in Hk].
      * rewrite !lookup_insert_ne, lookup_insert_eq by done. by eexists.
      * rewrite lookup_insert_ne, lookup_insert_eq by done. by eexists.
  - left. intros k Hk. unfold bands in Hk. simpl.
    repeat (apply elem_of_cons in Hk as [->|Hk]); [by vm_compute..|].
    by apply not_elem_of_nil in Hk.
Qed.

Lemma run_bands_uniform cs : bands_uniform (run cs).
Proof.
  unfold run. assert (bands_uniform initial) as H0.
  { left. intros k Hk. unfold bands in Hk.
    repeat (apply elem_of_cons in Hk as [->|Hk]); [by vm_compute..|].
    by apply not_elem_of_nil in Hk. }
  revert H0. generalize initial.
  induction cs as [|c cs IH]; intros s Hs; [done|].
  simpl. by apply IH, step_bands_uniform.
Qed.

(** In a session, [updateEq] is all or nothing: either no band exists yet
    (before [initAudio], after [cleanupAudio]) and the call changes nothing
    and logs an error, or it sets the low gain of the low band, the mid gain
    of the mid band and the high gain of the high band to the values given,
    without an error. *)
Theorem updateEq_all_or_nothing cs e :
  updateEq e (run cs) = (run cs, eq_error)
  \/ (snd (updateEq e (run cs)) = quiet
      /\ exists bl bm bh,
          eq (fst (updateEq e (run cs))) !! "low" = Some (Some bl)
          /\ Tone.low bl = set_low e
          /\ eq (fst (updateEq e (run cs))) !! "mid" = Some (Some bm)
          /\ Tone.mid bm = set_mid e
          /\ eq (fst (updateEq e (run cs))) !! "high" = Some (Some bh)
          /\ Tone.high bh = set_high e).
Proof.
  destruct (run_bands_uniform cs) as [Hnone|Hall].
  - left. apply updateEq_absent. intros b.
    rewrite (Hnone "low"); [done|by left].
  - right.
    destruct (Hall "low") as [bl Hl]; [by left|].
    destruct (Hall "mid") as [bm Hm]; [by right; left|].
    destruct (Hall "high") as [bh Hh]; [by do 2 right; left|].
    rewrite (updateEq_present _ _ _ _ _ Hl Hm Hh). split; [done|]. simpl.
    exists (low_value (set_low e) bl), (mid_value (set_mid e) bm),
      (high_value (set_high e) bh).
    split; [by rewrite !lookup_insert_ne, lookup_insert_eq by done|].
    split; [done|].
    split; [by rewrite lookup_insert_ne, lookup_insert_eq by done|].
    split; [done|]. split; [by rewrite lookup_insert_eq|done].
Qed.

(** In a session, of two [updateEq] calls in a row the second wins: the
    engine is as if only the second had been made. *)
Theorem updateEq_last_write_wins cs e1 e2 :
  fst (updateEq e2 (fst (updateEq e1 (run cs)))) = fst (updateEq e2 (run cs)).
Proof.
  destruct (run_bands_uniform cs) as [Hnone|Hall].
  - rewrite (updateEq_absent e1); [done|]. intros b.
    rewrite (Hnone "low"); [done|by left].
  - destruct (Hall "low") as [bl Hl]; [by left|].
    destruct (Hall "mid") as [bm Hm]; [by right; left|].
    destruct (Hall "high") as [bh Hh]; [by do 2 right; left|].
    rewrite (updateEq_present e1 _ _ _ _ Hl Hm Hh).
    rewrite (updateEq_present e2 _ _ _ _ Hl Hm Hh). simpl.
    rewrite (updateEq_present e2 _ (low_value (set_low e1) bl)
               (mid_value (set_mid e1) bm) (high_value (set_high e1) bh)).
    + simpl. unfold with_eq. simpl. f_equal. apply map_eq. intros k.
      rewrite !lookup_insert. repeat case_decide; by subst.
    + simpl. by rewrite !lookup_insert_ne, lookup_insert_eq by done.
    + simpl. by rewrite lookup_insert_ne, lookup_insert_eq by done.
    + simpl. by rewrite lookup_insert_eq.
Qed.

(** *** The callback of a part *)

(** A velocity of 0 is not played silently: the callback treats it as no
    velocity and plays the note at velocity 1. *)
Theorem zero_velocity_plays_at_full s time ev :
  (velocity ev == 0)%Q ->
  callback s time ev = callback s time (with_velocity 1 ev).
Proof.
  intros Hv. unfold callback, with_velocity, or_else. simpl.
  apply Qeq_bool_iff in Hv. by rewrite Hv.
Qed.

(** On a piano note with velocity 0. *)
Lemma zero_velocity_plays_at_full_witness :
  callback (initAudio initial) 0
    {| instrument := "piano"; note := "C4"; time := 0; velocity := 0;
       duration := 1 # 2 |}
  = callback (initAudio initial) 0
      (with_velocity 1
         {| instrument := "piano"; note := "C4"; time := 0; velocity := 0;
            duration := 1 # 2 |}).
Proof. apply zero_velocity_plays_at_full. by vm_compute. Defined.

(** An event of a compiled document whose instrument has a sampler is
    handed over as it is written: the callback makes one call, to that
    sampler, with the note of the event, its own duration of 0.5 and its
    own velocity of 1, at the time the part fires; the fallbacks of the
    callback are not used. *)
Theorem compiled_event_played_as_written text doc (bt : string)
    (evs : list NoteEvent) ev s sampler fired :
  compile text = Some doc ->
  patterns doc !! bt = Some evs ->
  ev ∈ evs ->
  instruments s !! instrument ev = Some (Some sampler) ->
  effects (callback s fired ev)
  = [TriggerAttackRelease sampler (Api.note ev)
       (Tone.Num (1 # 2)) (Some fired) (Some 1%Q)].
Proof.
  intros Hdoc Hevs Hev Hs.
  apply ApiFacts.compile_inv in Hdoc as (t & items & _ & _ & ->).
  rewrite ApiFacts.validate_lookup in Hevs.
  destruct (PatternTransformer.pd_patterns _ !! bt) as [ds|]; [|done].
  simpl in Hevs. inversion Hevs; subst evs.
  apply list_elem_of_fmap in Hev as (d & -> & _).
  unfold callback, get. simpl in Hs |- *. by rewrite Hs.
Qed.

(** On the first event of [Spec.three_notes], after [initAudio]. *)
Lemma compiled_event_played_as_written_witness :
  effects (callback (initAudio initial) 3 (Spec.event "piano" "C4" 0))
  = [TriggerAttackRelease piano "C4" (Tone.Num (1 # 2)) (Some 3%Q) (Some 1%Q)].
Proof.
  eapply (compiled_event_played_as_written Spec.three_notes _ "melody");
    [by vm_compute | by vm_compute | left | by vm_compute].
Defined.

End EngineFacts.

(** * The client of the endpoint and the pattern editor *)

Module FrontendFacts.
Import Api ApiClient PatternEditor.

Lemma rejects_with_a_message data msg :
  parsePattern_of data = Rejects msg -> msg <> "".
Proof.
  unfold parsePattern_of. destruct (negb (success data)); [|done].
  destruct (Api.error data) as [[|c m]|]; intros H; inversion H; done.
Qed.

Lemma not_json_message : not_json <> "".
Proof. done. Qed.

Lemma parsePattern_cases code :
  (exists doc,
      compile code = Some doc /\ finite_times doc = true
      /\ parsePattern code = Some (Resolves (Some doc)))
  \/ ((compile code = None
       \/ exists doc, compile code = Some doc /\ finite_times doc = false)
      /\ exists msg, msg <> "" /\ parsePattern code = Some (Rejects msg)).
Proof.
  unfold parsePattern, compile.
  destruct (CompilerFacts.parse_pattern_cases code)
    as [(t & doc & _ & ->)|(e & _ & ->)]; simpl.
  - unfold render. simpl. destruct (finite_times doc) eqn:Hfin.
    + left. by exists doc.
    + right. split; [right; by exists doc|].
      exists not_json. split; [apply not_json_message|done].
  - right. split; [by left|].
    destruct (parsePattern_of _) as [x|msg] eqn:E; [by destruct e|].
    exists msg. split; [by eapply rejects_with_a_message|done].
Qed.


(** A timestamp of 400 digits compiles, and the client is not given the
    document. *)
Lemma huge_timestamp_rejected :
  (finite_times <$> compile huge_timestamp) = Some false
  /\ parsePattern huge_timestamp = Some (Rejects not_json).
Proof. by vm_compute. Qed.


(** The editor never sends an empty program: with nothing typed it is
    [DEFAULT_PATTERN] that is compiled, and that compiles, so the Parse
    button on an empty editor always yields a document. *)
Theorem empty_editor_parses_the_default ed :
  patternCode ed = "" ->
  exists ed' doc,
    handleParsePattern ed = Some ed'
    /\ compile DEFAULT_PATTERN = Some doc
    /\ parsedPattern ed' = Some doc
    /\ PatternEditor.error ed' = None
    /\ dom (patterns doc) = {[ "melody"; "rhythm" ]}.
Proof.
  intros Hcode. unfold handleParsePattern. rewrite Hcode.
  change (code_to_parse "") with DEFAULT_PATTERN.
  destruct (parsePattern_cases DEFAULT_PATTERN)
    as [(doc & Hdoc & _ & ->)|([Hnone|(doc & Hdoc & Hinf)] & _)].
  2: by vm_compute in Hnone.
  2: { vm_compute in Hdoc. inversion Hdoc; subst doc. by vm_compute in Hinf. }
  simpl. eexists _, doc. split; [reflexivity|]. simpl.
  do 3 (split; [done|]). vm_compute in Hdoc. inversion Hdoc. by vm_compute.
Qed.

(** On an editor with nothing typed. *)
Lemma empty_editor_parses_the_default_witness :
  exists ed' doc,
    handleParsePattern
      {| patternCode := ""; parsedPattern := None;
         PatternEditor.error := None; isLoading := false |} = Some ed'
    /\ compile DEFAULT_PATTERN = Some doc
    /\ parsedPattern ed' = Some doc
    /\ PatternEditor.error ed' = None
    /\ dom (patterns doc) = {[ "melody"; "rhythm" ]}.
Proof. by apply empty_editor_parses_the_default. Defined.

End FrontendFacts.

(** * White space before the program *)

Module WhiteSpaceFacts.
Import Lexer Lark Grammar LarkFacts Api.

(** *** A budget above the length of the input is as good as any other *)

Lemma statements_budget f1 f2 s :
  length s < f1 -> length s < f2 -> statements f1 s = statements f2 s.
Proof.
  revert f2 s. induction f1 as [|f1 IH]; intros [|f2] s H1 H2; try lia.
  cbn [statements]. destruct (lit _ (skip_ws s)); [done|].
  unfold bind. destruct (statement s) as [st r| |] eqn:E; [|done..].
  apply statement_Ok in E. by rewrite (IH f2 r) by lia.
Qed.

Lemma pattern_block_budget f1 f2 s :
  length s <= f1 -> length s <= f2 -> pattern_block f1 s = pattern_block f2 s.
Proof.
  intros H1 H2. unfold pattern_block, bind.
  destruct (tok BLOCK_TYPE s) as [b r1| |] eqn:E1; [|done..].
  apply tok_Ok in E1; [|apply BLOCK_TYPE_prefix].
  destruct (sym "{" r1) as [u r2| |] eqn:E2; [|done..].
  apply sym_Ok in E2. by rewrite (statements_budget f1 f2 r2) by lia.
Qed.

Lemma pattern_blocks_budget f1 f2 s :
  length s < f1 -> length s < f2 -> pattern_blocks f1 s = pattern_blocks f2 s.
Proof.
  revert f2 s. induction f1 as [|f1 IH]; intros [|f2] s H1 H2; try lia.
  cbn [pattern_blocks]. unfold bind at 1 3.
  rewrite (pattern_block_budget f1 f2 s) by lia.
  destruct (pattern_block f2 s) as [b r1| |] eqn:E; [|done..].
  apply pattern_block_Ok in E. destruct (skip_ws r1); [done|].
  unfold bind. by rewrite (IH f2 r1) by lia.
Qed.

Lemma import_statements_budget f1 f2 s :
  length s < f1 -> length s < f2 ->
  import_statements f1 s = import_statements f2 s.
Proof.
  revert f2 s. induction f1 as [|f1 IH]; intros [|f2] s H1 H2; try lia.
  cbn [import_statements]. destruct (lit _ (skip_ws s)); [|done].
  unfold bind. destruct (import_statement s) as [i r| |] eqn:E; [|done..].
  apply import_statement_Ok in E. by rewrite (IH f2 r) by lia.
Qed.

Lemma start_budget f1 f2 s :
  length s < f1 -> length s < f2 -> start f1 s = start f2 s.
Proof.
  intros H1 H2. unfold start, bind.
  rewrite (import_statements_budget f1 f2 s) by lia.
  destruct (import_statements f2 s) as [ims r| |] eqn:E; [|done..].
  apply import_statements_Ok in E.
  by rewrite (pattern_blocks_budget f1 f2 r) by lia.
Qed.

(** *** White space in front *)

Lemma skip_ws_app w s :
  forallb is_ws w = true -> skip_ws (w ++ s) = skip_ws s.
Proof.
  unfold skip_ws. induction w as [|c w IH]; [done|]. simpl.
  intros H. apply andb_prop in H as [Hc Hw]. rewrite Hc.
  specialize (IH Hw). by destruct (take_while is_ws (w ++ s)).
Qed.

Lemma pattern_blocks_ws f w s :
  forallb is_ws w = true -> pattern_blocks f (w ++ s) = pattern_blocks f s.
Proof.
  intros Hw. destruct f as [|f]; [done|]. cbn [pattern_blocks].
  unfold bind at 1 3. unfold pattern_block, bind at 1 4, tok.
  by rewrite (skip_ws_app w s Hw).
Qed.

Lemma start_ws f w s :
  forallb is_ws w = true -> start f (w ++ s) = start f s.
Proof.
  intros Hw. unfold start. unfold bind at 1 3.
  destruct f as [|f]; [done|]. cbn [import_statements].
  rewrite (skip_ws_app w s Hw).
  destruct (lit _ (skip_ws s)).
  - unfold bind at 1 4. unfold import_statement, bind at 1 6, sym.
    by rewrite (skip_ws_app w s Hw).
  - unfold bind. by rewrite (pattern_blocks_ws (S f) w s Hw).
Qed.

Lemma list_ascii_of_string_app a b :
  list_ascii_of_string (a ++ b)%string
  = list_ascii_of_string a ++ list_ascii_of_string b.
Proof. induction a as [|c a IH]; simpl; [done|]. by rewrite IH. Qed.

Lemma start_white w text :
  is_white w ->
  start (fuel_for (list_ascii_of_string (w ++ text)%string))
        (list_ascii_of_string (w ++ text)%string)
  = start (fuel_for (list_ascii_of_string text)) (list_ascii_of_string text).
Proof.
  intros Hw. rewrite list_ascii_of_string_app, (start_ws _ _ _ Hw).
  apply start_budget; unfold fuel_for; rewrite ?length_app; lia.
Qed.

(** White space in front of a program changes neither whether it compiles
    nor the document it compiles to. *)
Theorem leading_white_space_ignored w text :
  is_white w -> compile (w ++ text)%string = compile text.
Proof.
  intros Hw. unfold compile, parse_pattern, try_parse, parse.
  rewrite (start_white w text Hw).
  destruct (start _ (list_ascii_of_string text)) as [t r|[|c r]|]; done.
Qed.

(** On [Spec.three_notes] after a blank line and an indent. *)
Lemma leading_white_space_ignored_witness :
  compile (String "010" "  " ++ Spec.three_notes)%string
  = compile Spec.three_notes.
Proof. apply leading_white_space_ignored. by vm_compute. Defined.

End WhiteSpaceFacts.

(** * The transport controls *)

Module ControlFacts.
Import AudioEngine TransportControls StudioSession.



End ControlFacts.
